(** * parse5: the input preprocessor and the scriptable stream driver

    A shallow embedding of
      - [packages/parse5/lib/tokenizer/preprocessor.ts] (class [Preprocessor]),
      - [packages/parse5-parser-stream/lib/index.ts]   (class [ParserStream]),
    followed by the properties of the character cursor (columns, gaps,
    retreat, buffer compaction, parse-error reporting, end of input) and of
    the script suspension protocol.

    JavaScript numbers that hold positions, lines and code points are
    integers ([Z]); a JavaScript string is the list of its UTF-16 code
    units. *)

From Stdlib Require Import ZArith List Bool Lia.
Import ListNotations.
Open Scope Z_scope.

(* ================================================================== *)
(** ** JavaScript strings *)

Module JS.

(** A string is its sequence of 16-bit code units. *)
Definition string := list Z.

Definition length (h : string) : Z := Z.of_nat (List.length h).

(** Every unit of a well-formed string is a 16-bit value. *)
Definition code_unit (u : Z) : Prop := 0 <= u <= 65535.
Definition well_formed (h : string) : Prop := Forall code_unit h.

(** [charCodeAt] yields [NaN] outside the string.  Every test that the
    preprocessor makes on the result (equality with CR or LF, membership of
    the ranges of the common valid code points) fails for [NaN], as it does
    for the negative integer that stands for it here. *)
Definition NaN : Z := -3.

Definition charCodeAt (h : string) (i : Z) : Z :=
  if (0 <=? i) && (i <? length h) then nth (Z.to_nat i) h NaN else NaN.

(** [substring] clamps both indices to [0 .. length] and swaps them when
    they come in the wrong order. *)
Definition clamp (h : string) (i : Z) : Z := Z.max 0 (Z.min i (length h)).

Definition substring (h : string) (start stop : Z) : string :=
  let a := clamp h start in
  let b := clamp h stop in
  let lo := Z.min a b in
  let hi := Z.max a b in
  firstn (Z.to_nat (hi - lo)) (skipn (Z.to_nat lo) h).

(** [h.substring(start)]: the end index defaults to the length. *)
Definition substring_from (h : string) (start : Z) : string :=
  substring h start (length h).

(** [ToInt32] on what [charCodeAt] yields, as the operator [|] applies it:
    [NaN] becomes 0 and a code unit is itself. *)
Definition to_int32 (x : Z) : Z := if x =? NaN then 0 else x.

(** [h.startsWith(pattern, position)]: the position is clamped to
    [0 .. length] and the units from there on are compared with the
    pattern. *)
Definition startsWith (h pattern : string) (position : Z) : bool :=
  let start := clamp h position in
  if list_eq_dec Z.eq_dec
       (firstn (List.length pattern) (skipn (Z.to_nat start) h)) pattern
  then true else false.

End JS.

(* ================================================================== *)
(** ** Imports of the preprocessor *)

(** [CODE_POINTS] of [common/unicode.js]: the three the preprocessor uses.
    The comments of [advance] name U+000D and U+000A. *)
Module CODE_POINTS.
(** Modelled from the spec: [common/unicode.js] is not among the sources;
    the data model gives the sentinel as a value outside the Unicode
    range, -1. *)
Definition EOF : Z := -1.
Definition LINE_FEED : Z := 0x0A.
Definition CARRIAGE_RETURN : Z := 0x0D.
End CODE_POINTS.

(** The predicates imported from [common/unicode.js] are parameters of the
    development. *)
Class UnicodeHelpers : Type := {
  isSurrogate : Z -> bool;
  isSurrogatePair : Z -> bool;
  getSurrogatePairCodePoint : Z -> Z -> Z;
  isControlCodePoint : Z -> bool;
  isUndefinedCodePoint : Z -> bool
}.

(** Modelled from the spec: [common/unicode.js] is not among the sources.
    The instance below follows the Unicode ranges the data model refers to:
    surrogates are U+D800..U+DFFF, the trailing half of a pair is
    U+DC00..U+DFFF, a well-formed pair combines into one code point above
    the basic plane, controls are C0 (less the HTML white space) and
    U+007F..U+009F, and the undefined code points are the noncharacters. *)
Module UnicodeJs.

Definition isSurrogate (cp : Z) : bool := (0xD800 <=? cp) && (cp <=? 0xDFFF).

Definition isSurrogatePair (cp : Z) : bool := (0xDC00 <=? cp) && (cp <=? 0xDFFF).

Definition getSurrogatePairCodePoint (cp1 cp2 : Z) : Z :=
  (cp1 - 0xD800) * 0x400 + 0x2400 + cp2.

Definition isControlCodePoint (cp : Z) : bool :=
  (negb (cp =? 0x20) && negb (cp =? 0x0A) && negb (cp =? 0x0D)
   && negb (cp =? 0x09) && negb (cp =? 0x0C)
   && (0x01 <=? cp) && (cp <=? 0x1F))
  || ((0x7F <=? cp) && (cp <=? 0x9F)).

Definition isUndefinedCodePoint (cp : Z) : bool :=
  ((0xFDD0 <=? cp) && (cp <=? 0xFDEF))
  || ((0xFFFE <=? cp) && (cp <=? 0x10FFFF) && (Z.land cp 0xFFFE =? 0xFFFE)).

End UnicodeJs.

#[global] Instance unicode_js : UnicodeHelpers := {|
  isSurrogate := UnicodeJs.isSurrogate;
  isSurrogatePair := UnicodeJs.isSurrogatePair;
  getSurrogatePairCodePoint := UnicodeJs.getSurrogatePairCodePoint;
  isControlCodePoint := UnicodeJs.isControlCodePoint;
  isUndefinedCodePoint := UnicodeJs.isUndefinedCodePoint
|}.

(** [ERR] of [common/error-codes.js]: the codes the preprocessor reports. *)
Inductive ERR : Type :=
| controlCharacterInInputStream
| noncharacterInInputStream
| surrogateInInputStream.

Record ParserError : Type := {
  code : ERR;
  startLine : Z;
  endLine : Z;
  startCol : Z;
  endCol : Z;
  startOffset : Z;
  endOffset : Z
}.

(** [handler.onParseError] is optional and nullable: absent, [null], or a
    function.  Calls of the function are recorded in the state. *)
Inductive OnParseError : Type :=
| HandlerUndefined
| HandlerNull
| HandlerFunction.

(* ================================================================== *)
(** ** The preprocessor *)

Module Preprocessor.

Import CODE_POINTS.

Definition DEFAULT_BUFFER_WATERLINE : Z := Z.shiftl 1 16.

(** The fields of the class.  [lastGapPos] becomes [undefined] ([None])
    when [retreat] pops an empty [gapStack]; the stack therefore holds the
    same kind of value.  The head of [gapStack] is the element pushed
    last.  [reported] lists the calls of [handler.onParseError], oldest
    first. *)
Record t : Type := mk {
  html : JS.string;
  pos : Z;
  lastGapPos : option Z;
  gapStack : list (option Z);
  skipNextNewLine : bool;
  lastChunkWritten : bool;
  endOfChunkHit : bool;
  bufferWaterline : Z;
  isEol : bool;
  lineStartPos : Z;
  droppedBufferSize : Z;
  line : Z;
  lastErrOffset : Z;
  handler : OnParseError;
  reported : list ParserError
}.

Definition new (h : OnParseError) : t := {|
  html := [];
  pos := -1;
  lastGapPos := Some (-2);
  gapStack := [];
  skipNextNewLine := false;
  lastChunkWritten := false;
  endOfChunkHit := false;
  bufferWaterline := DEFAULT_BUFFER_WATERLINE;
  isEol := false;
  lineStartPos := 0;
  droppedBufferSize := 0;
  line := 1;
  lastErrOffset := -1;
  handler := h;
  reported := []
|}.

(** Field assignments. *)
Definition set_html (v : JS.string) (s : t) : t :=
  mk v (pos s) (lastGapPos s) (gapStack s) (skipNextNewLine s) (lastChunkWritten s)
     (endOfChunkHit s) (bufferWaterline s) (isEol s) (lineStartPos s)
     (droppedBufferSize s) (line s) (lastErrOffset s) (handler s) (reported s).
Definition set_pos (v : Z) (s : t) : t :=
  mk (html s) v (lastGapPos s) (gapStack s) (skipNextNewLine s) (lastChunkWritten s)
     (endOfChunkHit s) (bufferWaterline s) (isEol s) (lineStartPos s)
     (droppedBufferSize s) (line s) (lastErrOffset s) (handler s) (reported s).
Definition set_lastGapPos (v : option Z) (s : t) : t :=
  mk (html s) (pos s) v (gapStack s) (skipNextNewLine s) (lastChunkWritten s)
     (endOfChunkHit s) (bufferWaterline s) (isEol s) (lineStartPos s)
     (droppedBufferSize s) (line s) (lastErrOffset s) (handler s) (reported s).
Definition set_gapStack (v : list (option Z)) (s : t) : t :=
  mk (html s) (pos s) (lastGapPos s) v (skipNextNewLine s) (lastChunkWritten s)
     (endOfChunkHit s) (bufferWaterline s) (isEol s) (lineStartPos s)
     (droppedBufferSize s) (line s) (lastErrOffset s) (handler s) (reported s).
Definition set_skipNextNewLine (v : bool) (s : t) : t :=
  mk (html s) (pos s) (lastGapPos s) (gapStack s) v (lastChunkWritten s)
     (endOfChunkHit s) (bufferWaterline s) (isEol s) (lineStartPos s)
     (droppedBufferSize s) (line s) (lastErrOffset s) (handler s) (reported s).
Definition set_lastChunkWritten (v : bool) (s : t) : t :=
  mk (html s) (pos s) (lastGapPos s) (gapStack s) (skipNextNewLine s) v
     (endOfChunkHit s) (bufferWaterline s) (isEol s) (lineStartPos s)
     (droppedBufferSize s) (line s) (lastErrOffset s) (handler s) (reported s).
Definition set_endOfChunkHit (v : bool) (s : t) : t :=
  mk (html s) (pos s) (lastGapPos s) (gapStack s) (skipNextNewLine s) (lastChunkWritten s)
     v (bufferWaterline s) (isEol s) (lineStartPos s)
     (droppedBufferSize s) (line s) (lastErrOffset s) (handler s) (reported s).
Definition set_bufferWaterline (v : Z) (s : t) : t :=
  mk (html s) (pos s) (lastGapPos s) (gapStack s) (skipNextNewLine s) (lastChunkWritten s)
     (endOfChunkHit s) v (isEol s) (lineStartPos s)
     (droppedBufferSize s) (line s) (lastErrOffset s) (handler s) (reported s).
Definition set_isEol (v : bool) (s : t) : t :=
  mk (html s) (pos s) (lastGapPos s) (gapStack s) (skipNextNewLine s) (lastChunkWritten s)
     (endOfChunkHit s) (bufferWaterline s) v (lineStartPos s)
     (droppedBufferSize s) (line s) (lastErrOffset s) (handler s) (reported s).
Definition set_lineStartPos (v : Z) (s : t) : t :=
  mk (html s) (pos s) (lastGapPos s) (gapStack s) (skipNextNewLine s) (lastChunkWritten s)
     (endOfChunkHit s) (bufferWaterline s) (isEol s) v
     (droppedBufferSize s) (line s) (lastErrOffset s) (handler s) (reported s).
Definition set_droppedBufferSize (v : Z) (s : t) : t :=
  mk (html s) (pos s) (lastGapPos s) (gapStack s) (skipNextNewLine s) (lastChunkWritten s)
     (endOfChunkHit s) (bufferWaterline s) (isEol s) (lineStartPos s)
     v (line s) (lastErrOffset s) (handler s) (reported s).
Definition set_line (v : Z) (s : t) : t :=
  mk (html s) (pos s) (lastGapPos s) (gapStack s) (skipNextNewLine s) (lastChunkWritten s)
     (endOfChunkHit s) (bufferWaterline s) (isEol s) (lineStartPos s)
     (droppedBufferSize s) v (lastErrOffset s) (handler s) (reported s).
Definition set_lastErrOffset (v : Z) (s : t) : t :=
  mk (html s) (pos s) (lastGapPos s) (gapStack s) (skipNextNewLine s) (lastChunkWritten s)
     (endOfChunkHit s) (bufferWaterline s) (isEol s) (lineStartPos s)
     (droppedBufferSize s) (line s) v (handler s) (reported s).
Definition set_reported (v : list ParserError) (s : t) : t :=
  mk (html s) (pos s) (lastGapPos s) (gapStack s) (skipNextNewLine s) (lastChunkWritten s)
     (endOfChunkHit s) (bufferWaterline s) (isEol s) (lineStartPos s)
     (droppedBufferSize s) (line s) (lastErrOffset s) (handler s) v.

(** [a !== b] where [a] may be [undefined]. *)
Definition strict_neq (a : option Z) (b : Z) : bool :=
  match a with
  | Some g => negb (g =? b)
  | None => true
  end.

(** [a < b] where [b] may be [undefined]: the comparison is then false. *)
Definition lt_num (a : Z) (b : option Z) : bool :=
  match b with
  | Some g => a <? g
  | None => false
  end.

(** [get col]: [pos - lineStartPos + Number(lastGapPos !== pos)]. *)
Definition col (s : t) : Z :=
  pos s - lineStartPos s + (if strict_neq (lastGapPos s) (pos s) then 1 else 0).

(** [get offset]. *)
Definition offset (s : t) : Z := droppedBufferSize s + pos s.

Definition getError (c : ERR) (s : t) : ParserError := {|
  code := c;
  startLine := line s;
  endLine := line s;
  startCol := col s;
  endCol := col s;
  startOffset := offset s;
  endOffset := offset s
|}.

Definition is_function (h : OnParseError) : bool :=
  match h with HandlerFunction => true | _ => false end.

Definition is_null (h : OnParseError) : bool :=
  match h with HandlerNull => true | _ => false end.

(** [_err]: the handler is called unless the last report was made at the
    current offset. *)
Definition _err (c : ERR) (s : t) : t :=
  if is_function (handler s) && negb (lastErrOffset s =? offset s) then
    let s1 := set_lastErrOffset (offset s) s in
    set_reported (reported s1 ++ [getError c s1]) s1
  else s.

Definition _addGap (s : t) : t :=
  let s1 := set_gapStack (lastGapPos s :: gapStack s) s in
  set_lastGapPos (Some (pos s1)) s1.

Definition willDropParsedChunk (s : t) : bool := bufferWaterline s <? pos s.

Definition dropParsedChunk (s : t) : t :=
  if willDropParsedChunk s then
    let s1 := set_html (JS.substring_from (html s) (pos s)) s in
    let s2 := set_lineStartPos (lineStartPos s1 - pos s1) s1 in
    let s3 := set_droppedBufferSize (droppedBufferSize s2 + pos s2) s2 in
    let s4 := set_pos 0 s3 in
    let s5 := set_lastGapPos (Some (-2)) s4 in
    set_gapStack [] s5
  else s.

Definition write (chunk : JS.string) (isLastChunk : bool) (s : t) : t :=
  let s1 :=
    if 0 <? JS.length (html s) then set_html (html s ++ chunk) s
    else set_html chunk s in
  let s2 := set_endOfChunkHit false s1 in
  set_lastChunkWritten isLastChunk s2.

Definition insertHtmlAtCurrentPos (chunk : JS.string) (s : t) : t :=
  let s1 :=
    set_html (JS.substring (html s) 0 (pos s + 1) ++ chunk
              ++ JS.substring_from (html s) (pos s + 1)) s in
  set_endOfChunkHit false s1.

Definition peek (off : Z) (s : t) : Z * t :=
  let p := pos s + off in
  if JS.length (html s) <=? p then
    (EOF, set_endOfChunkHit (negb (lastChunkWritten s)) s)
  else (JS.charCodeAt (html s) p, s).

(** The loop of [startsWith] for a search that ignores case: unit [i] of
    the buffer from the cursor on, with bit 0x20 set, against unit [i] of
    the pattern. *)
Fixpoint startsWith_loop (h : JS.string) (p : Z) (pattern : JS.string) (i : Z)
  {struct pattern} : bool :=
  match pattern with
  | [] => true
  | u :: rest =>
      let cp := Z.lor (JS.to_int32 (JS.charCodeAt h (p + i))) 0x20 in
      if negb (cp =? u) then false
      else startsWith_loop h p rest (i + 1)
  end.

Definition startsWith (pattern : JS.string) (caseSensitive : bool) (s : t) : bool * t :=
  if JS.length (html s) <? pos s + JS.length pattern then
    (false, set_endOfChunkHit (negb (lastChunkWritten s)) s)
  else if caseSensitive then
    (JS.startsWith (html s) pattern (pos s), s)
  else (startsWith_loop (html s) (pos s) pattern 0, s).

(** The loop of [retreat]: every turn pops [gapStack] into [lastGapPos]
    and decrements [pos]; popping the empty stack gives [undefined], which
    ends the loop. *)
Fixpoint retreat_loop (stack : list (option Z)) (p : Z) (g : option Z)
  {struct stack} : Z * option Z * list (option Z) :=
  if lt_num p g then
    match stack with
    | [] => (p - 1, None, [])
    | g' :: rest => retreat_loop rest (p - 1) g'
    end
  else (p, g, stack).

Definition retreat (count : Z) (s : t) : t :=
  let s1 := set_pos (pos s - count) s in
  let '(p, g, stack) := retreat_loop (gapStack s1) (pos s1) (lastGapPos s1) in
  let s2 := set_gapStack stack (set_lastGapPos g (set_pos p s1)) in
  set_isEol false s2.

Section WithUnicode.

Context {U : UnicodeHelpers}.

(** [_processSurrogate]: the code point to go on with and the state. *)
Definition _processSurrogate (cp : Z) (s : t) : Z * t :=
  if negb (pos s =? JS.length (html s) - 1) then
    let nextCp := JS.charCodeAt (html s) (pos s + 1) in
    if isSurrogatePair nextCp then
      let s1 := set_pos (pos s + 1) s in
      let s2 := _addGap s1 in
      (getSurrogatePairCodePoint cp nextCp, s2)
    else (cp, _err surrogateInInputStream s)
  else if negb (lastChunkWritten s) then
    (EOF, set_endOfChunkHit true s)
  else (cp, _err surrogateInInputStream s).

Definition _checkForProblematicCharacters (cp : Z) (s : t) : t :=
  if isControlCodePoint cp then _err controlCharacterInInputStream s
  else if isUndefinedCodePoint cp then _err noncharacterInInputStream s
  else s.

Definition isCommonValidRange (cp : Z) (s : t) : bool :=
  is_null (handler s)
  || ((0x1f <? cp) && (cp <? 0x7f))
  || (cp =? LINE_FEED)
  || (cp =? CARRIAGE_RETURN)
  || ((0x9f <? cp) && (cp <? 0xfdd0)).

(** One activation of [advance]: either it returns, or it reaches the
    tail call [return this.advance()] in the state given. *)
Inductive activation : Type :=
| Return (cp : Z) (s : t)
| TailCall (s : t).

(** The part of [advance] after the line-feed test. *)
Definition advance_tail (cp : Z) (s : t) : Z * t :=
  let s1 := set_skipNextNewLine false s in
  let '(cp1, s2) :=
    if isSurrogate cp then _processSurrogate cp s1 else (cp, s1) in
  let s3 :=
    if negb (isCommonValidRange cp1 s2)
    then _checkForProblematicCharacters cp1 s2 else s2 in
  (cp1, s3).

(** The head of [advance]: [pos] is incremented and a pending end of
    line is turned into a new line. *)
Definition advance_enter (s : t) : t :=
  let s1 := set_pos (pos s + 1) s in
  if isEol s1 then
    let a := set_isEol false s1 in
    let b := set_line (line a + 1) a in
    set_lineStartPos (pos b) b
  else s1.

(** The rest of [advance], from the end-of-buffer test on. *)
Definition advance_read (s2 : t) : activation :=
  if JS.length (html s2) <=? pos s2 then
    Return EOF (set_endOfChunkHit (negb (lastChunkWritten s2)) s2)
  else
    let cp := JS.charCodeAt (html s2) (pos s2) in
    if cp =? CARRIAGE_RETURN then
      Return LINE_FEED (set_skipNextNewLine true (set_isEol true s2))
    else if cp =? LINE_FEED then
      let s3 := set_isEol true s2 in
      if skipNextNewLine s3 then
        let a := set_line (line s3 - 1) s3 in
        let b := set_skipNextNewLine false a in
        TailCall (_addGap b)
      else
        let '(cp1, s4) := advance_tail cp s3 in Return cp1 s4
    else
      let '(cp1, s4) := advance_tail cp s2 in Return cp1 s4.

Definition advance_body (s : t) : activation :=
  advance_read (advance_enter s).

(** [advance], with the depth of the recursion bounded by [fuel]. *)
Fixpoint advance_fuel (fuel : nat) (s : t) : option (Z * t) :=
  match fuel with
  | O => None
  | S fuel' =>
      match advance_body s with
      | Return cp s' => Some (cp, s')
      | TailCall s' => advance_fuel fuel' s'
      end
  end.

(** The recursive call is made with [skipNextNewLine] cleared and so
    returns at once: two activations always suffice
    (see [advance_fuel_enough]). *)
Definition advance (s : t) : Z * t :=
  match advance_fuel 2 s with
  | Some r => r
  | None => (EOF, s)
  end.

(** What a caller sees after an [advance]: the code point returned and
    the getters [line], [col], [offset]. *)
Definition observation : Type := (Z * Z * Z * Z)%type.

Definition observe (cp : Z) (s : t) : observation :=
  (cp, line s, col s, offset s).

(** [k] calls of [advance] in a row: what each one showed, and the state
    at the end. *)
Fixpoint advances (k : nat) (s : t) : list observation * t :=
  match k with
  | O => ([], s)
  | S k' =>
      let '(cp, s1) := advance s in
      let '(obs, s2) := advances k' s1 in
      (observe cp s1 :: obs, s2)
  end.

End WithUnicode.

End Preprocessor.

(* ================================================================== *)
(** ** The stream driver *)

Module ParserStream.

(** [throw new Error('Parser was already resumed')]. *)
Inductive Error : Type :=
| AlreadyResumed.

(** The fields of the class that the script protocol uses; the parser is
    the object built by [new Parser(options)].  The head of
    [pendingHtmlInsertions] is the element pushed last.  The write
    callback and the document are left out: neither [_resume] nor
    [_documentWrite] reads them. *)
Record t (Parser : Type) : Type := mk {
  lastChunkWritten : bool;
  pausedByScript : bool;
  parser : Parser;
  pendingHtmlInsertions : list JS.string
}.

Arguments mk {Parser}.
Arguments lastChunkWritten {Parser}.
Arguments pausedByScript {Parser}.
Arguments parser {Parser}.
Arguments pendingHtmlInsertions {Parser}.

(** What the driver calls on [parse5]'s parser and tokenizer, which are
    imported from the [parse5] package: parameters of the driver.
    [runParsingLoopForCurrentChunk] receives the write callback and the
    script handler of the stream and so may change the whole stream. *)
Class ParserInterface (Parser : Type) : Type := {
  tokenizer_insertHtmlAtCurrentPos : JS.string -> Parser -> Parser;
  tokenizer_active : Parser -> bool;
  stopped : Parser -> bool;
  runParsingLoopForCurrentChunk : t Parser -> t Parser;
  tokenizer_preprocessor : Parser -> Preprocessor.t
}.

Section Driver.

Context {Parser : Type} {P : ParserInterface Parser}.

Definition set_pausedByScript (v : bool) (s : t Parser) : t Parser :=
  mk (lastChunkWritten s) v (parser s) (pendingHtmlInsertions s).
Definition set_parser (v : Parser) (s : t Parser) : t Parser :=
  mk (lastChunkWritten s) (pausedByScript s) v (pendingHtmlInsertions s).
Definition set_pendingHtmlInsertions (v : list JS.string) (s : t Parser) : t Parser :=
  mk (lastChunkWritten s) (pausedByScript s) (parser s) v.

Definition _runParsingLoop (s : t Parser) : t Parser :=
  runParsingLoopForCurrentChunk s.

(** The loop of [_resume]: pop, insert, until the stack is empty. *)
Fixpoint drain (s : t Parser) (pending : list JS.string) : t Parser :=
  match pending with
  | [] => set_pendingHtmlInsertions [] s
  | html :: rest =>
      let s1 := set_pendingHtmlInsertions rest s in
      drain (set_parser (tokenizer_insertHtmlAtCurrentPos html (parser s1)) s1) rest
  end.

Definition _resume (s : t Parser) : Error + t Parser :=
  if negb (pausedByScript s) then inl AlreadyResumed
  else
    let s1 := drain s (pendingHtmlInsertions s) in
    let s2 := set_pausedByScript false s1 in
    if tokenizer_active (parser s2) then inr (_runParsingLoop s2)
    else inr s2.

Definition _documentWrite (html : JS.string) (s : t Parser) : t Parser :=
  if negb (stopped (parser s)) then
    set_pendingHtmlInsertions (html :: pendingHtmlInsertions s) s
  else s.

(** [documentWrite] called with each of [written], in that order. *)
Definition documentWrites (written : list JS.string) (s : t Parser) : t Parser :=
  fold_left (fun acc html => _documentWrite html acc) written s.

(** The insertions of [written] made last-received first. *)
Definition insert_newest_first (written : list JS.string) (p : Parser) : Parser :=
  fold_right tokenizer_insertHtmlAtCurrentPos p written.

End Driver.

(** A small parser for running the driver on concrete inputs: a tokenizer
    that owns a preprocessor and an [active] flag, forwards insertions to
    the preprocessor, and whose loop pauses the tokenizer. *)
Record Tokenizer : Type := mkTokenizer {
  preprocessor : Preprocessor.t;
  active : bool;
  isStopped : bool
}.

#[global] Instance forwarding_parser : ParserInterface Tokenizer := {|
  tokenizer_insertHtmlAtCurrentPos := fun html p =>
    mkTokenizer (Preprocessor.insertHtmlAtCurrentPos html (preprocessor p))
                (active p) (isStopped p);
  tokenizer_active := active;
  stopped := isStopped;
  runParsingLoopForCurrentChunk := fun s =>
    mk (lastChunkWritten s) (pausedByScript s)
       (mkTokenizer (preprocessor (parser s)) false (isStopped (parser s)))
       (pendingHtmlInsertions s);
  tokenizer_preprocessor := preprocessor
|}.

End ParserStream.

(* ================================================================== *)
(** ** Test utilities *)

(** [test/utils/common.ts]: the helpers that cut an input into chunks and
    that normalise line breaks in expected results. *)
Module TestUtils.

(** [getRandomChunkSize(min, max)] is
    [min + Math.floor(Math.random() * (max - min + 1))]; [draw] is the value
    of the floored product, which lies in [0 .. max - min]. *)
Definition getRandomChunkSize (min draw : Z) : Z := min + draw.

(** The loop of [makeChunks]; every turn takes one draw.  [None] when the
    draws run out before the loop ends. *)
Fixpoint makeChunks_loop (str : JS.string) (min : Z) (draws : list Z)
         (start stop : Z) (chunks : list JS.string) {struct draws}
  : option (list JS.string) :=
  if start <? JS.length str then
    match draws with
    | [] => None
    | draw :: draws' =>
        makeChunks_loop str min draws' stop
          (Z.min (stop + getRandomChunkSize min draw) (JS.length str))
          (chunks ++ [JS.substring str start stop])
    end
  else Some chunks.

Definition makeChunks (str : JS.string) (min : Z) (draws : list Z)
  : option (list JS.string) :=
  if JS.length str =? 0 then Some [[]]
  else
    match draws with
    | [] => None
    | draw :: draws' =>
        let stop := Z.min (Z.min (getRandomChunkSize min draw) (JS.length str)) 1 in
        makeChunks_loop str min draws' 0 stop []
    end.

(** [str.replace(/\r\n/g, '\n')]. *)
Fixpoint normalizeNewLine (str : JS.string) : JS.string :=
  match str with
  | [] => []
  | a :: rest =>
      match rest with
      | b :: rest' =>
          if (a =? 0x0D) && (b =? 0x0A) then 0x0A :: normalizeNewLine rest'
          else a :: normalizeNewLine rest
      | [] => [a]
      end
  end.

(** [str.replace(/\r/g, '').replace(/\n/g, '')]. *)
Definition removeNewLines (str : JS.string) : JS.string :=
  filter (fun u => negb (u =? 0x0A)) (filter (fun u => negb (u =? 0x0D)) str).

End TestUtils.

(* ================================================================== *)
(** ** Vocabulary of the properties *)

Import Preprocessor.
Import CODE_POINTS.

(** A preprocessor that has been given its first chunk. *)
Definition fresh (input : JS.string) (isLastChunk : bool) (h : OnParseError) : t :=
  write input isLastChunk (new h).


(** The statements of the specification that the code does not satisfy, in
    the specification's words; each is compared below with the code. *)
Module Claimed.

(** "col = pos - lineStartPos + (lastGapPos == pos ? 1 : 0)". *)
Definition col (s : t) : Z :=
  pos s - lineStartPos s
  + (if strict_neq (lastGapPos s) (pos s) then 0 else 1).

Section WithUnicode.
Context {U : UnicodeHelpers}.

(** "for any sequence of advance calls, calling retreat(k) and then
    advancing k times yields identical codepoints and identical
    (line, col, offset) at each step": [n] advances on an input written
    in full, of which the last [k] are taken back and made again. *)
Definition retreat_round_trip (input : JS.string) (h : OnParseError)
           (n k : nat) : Prop :=
  (k <= n)%nat ->
  let '(obs, s) := advances n (fresh input true h) in
  fst (advances k (retreat (Z.of_nat k) s)) = skipn (n - k) obs.


End WithUnicode.

(** "if pos > bufferWaterline, truncates html[0..pos], adds that count to
    droppedBufferSize, resets pos and line-start to 0, clears gapStack";
    otherwise nothing changes. *)
Definition dropParsedChunk (s : t) : Prop :=
  (bufferWaterline s < pos s ->
   let s' := Preprocessor.dropParsedChunk s in
   html s' = skipn (Z.to_nat (pos s)) (html s)
   /\ droppedBufferSize s' = droppedBufferSize s + pos s
   /\ pos s' = 0
   /\ lineStartPos s' = 0
   /\ gapStack s' = [])
  /\ (pos s <= bufferWaterline s -> Preprocessor.dropParsedChunk s = s).


(** "onParseError is never invoked twice with the same
    (code, startOffset) pair". *)
Definition reports_distinct (s : t) : Prop :=
  NoDup (map (fun e => (code e, startOffset e)) (reported s)).

End Claimed.


(** "ab" read to its end by a preprocessor whose waterline was set to 0. *)
Definition ab_read_above_waterline : t :=
  snd (advances 2 (set_bufferWaterline 0 (fresh [97; 98] true HandlerNull))).

(** Two control characters, U+0001 U+0002, written in full to a preprocessor
    with an error handler and read; then [retreat(2)] and one [advance]. *)
Definition controls_read_again : t :=
  let s := snd (advances 2 (fresh [1; 2] true HandlerFunction)) in
  snd (advance (retreat 2 s)).

(** The same input read, then [retreat(1)] and one [advance]. *)
Definition control_read_again : t :=
  let s := snd (advances 2 (fresh [1; 2] true HandlerFunction)) in
  snd (advance (retreat 1 s)).

(** States that differ at most in the record of what was reported. *)
Definition reports_only (a b : t) : Prop :=
  html a = html b /\ pos a = pos b /\ lastGapPos a = lastGapPos b
  /\ gapStack a = gapStack b /\ skipNextNewLine a = skipNextNewLine b
  /\ lastChunkWritten a = lastChunkWritten b
  /\ endOfChunkHit a = endOfChunkHit b
  /\ bufferWaterline a = bufferWaterline b
  /\ isEol a = isEol b /\ lineStartPos a = lineStartPos b
  /\ droppedBufferSize a = droppedBufferSize b
  /\ line a = line b /\ handler a = handler b.

(** The cursor invariant of the states that [advance] reaches from a fresh
    preprocessor: the last gap is a position at or before the cursor, and a
    pending [skipNextNewLine] was set by the carriage return just read unless
    the cursor is at the end of the buffer. *)
Definition cursor_ok (s : t) : Prop :=
  (exists g, lastGapPos s = Some g /\ g <= pos s)
  /\ (skipNextNewLine s = true ->
      isEol s = true \/ JS.length (html s) <= pos s + 1).

(** Two states with the same cursor: they agree on every field that the
    getters [line], [col], [offset] and the reads of [advance] depend on,
    and may differ in [skipNextNewLine], [isEol], [endOfChunkHit] and in what
    was reported. *)
Definition same_cursor (a b : t) : Prop :=
  html a = html b /\ pos a = pos b /\ lastGapPos a = lastGapPos b
  /\ gapStack a = gapStack b /\ lastChunkWritten a = lastChunkWritten b
  /\ lineStartPos a = lineStartPos b
  /\ droppedBufferSize a = droppedBufferSize b /\ line a = line b
  /\ handler a = handler b.

(** States that [advance] cannot tell apart, as far as the code points and
    positions go: the same cursor, the same [isEol], and the same
    [skipNextNewLine] unless nothing is left to read. *)
Definition alike (a b : t) : Prop :=
  same_cursor a b /\ isEol a = isEol b
  /\ (skipNextNewLine a = skipNextNewLine b \/ JS.length (html a) <= pos a + 1).

Definition alike_activation {U : UnicodeHelpers} (x y : activation) : Prop :=
  match x, y with
  | Return c a, Return c' b => c = c' /\ alike a b
  | TailCall a, TailCall b => alike a b
  | _, _ => False
  end.

(** None of the first [k] calls of [advance] from [s] reads a line break:
    [isEol] stays clear. *)
Fixpoint no_line_break {U : UnicodeHelpers} (k : nat) (s : t) : bool :=
  match k with
  | O => true
  | S k' =>
      let s1 := snd (advance s) in
      negb (isEol s1) && no_line_break k' s1
  end.

(** The states that the public operations of the class reach from a new
    preprocessor, [bufferWaterline] being a public field. *)
Inductive reachable {U : UnicodeHelpers} : t -> Prop :=
| reach_new (h : OnParseError) : reachable (new h)
| reach_write (chunk : JS.string) (isLast : bool) (s : t) :
    reachable s -> reachable (write chunk isLast s)
| reach_insert (chunk : JS.string) (s : t) :
    reachable s -> reachable (insertHtmlAtCurrentPos chunk s)
| reach_advance (s : t) : reachable s -> reachable (snd (advance s))
| reach_retreat (count : Z) (s : t) : reachable s -> reachable (retreat count s)
| reach_peek (off : Z) (s : t) : reachable s -> reachable (snd (peek off s))
| reach_startsWith (pattern : JS.string) (cs : bool) (s : t) :
    reachable s -> reachable (snd (startsWith pattern cs s))
| reach_drop (s : t) : reachable s -> reachable (dropParsedChunk s)
| reach_waterline (w : Z) (s : t) : reachable s -> reachable (set_bufferWaterline w s).

(** No two reports in a row carry the same offset, and [lastErrOffset] is
    the offset of the report made last. *)
Fixpoint adjacent_distinct (l : list Z) : Prop :=
  match l with
  | a :: (b :: _) as rest => a <> b /\ adjacent_distinct rest
  | _ => True
  end.

Definition reports_ok (s : t) : Prop :=
  adjacent_distinct (map startOffset (reported s))
  /\ (reported s <> [] ->
      last (map startOffset (reported s)) 0 = lastErrOffset s).

(** The state [a] seen from a buffer whose first [d] units were dropped,
    with [g] and [st] for the gaps. *)
Definition rebase (d : Z) (g : option Z) (st : list (option Z)) (a : t) : t :=
  mk (skipn (Z.to_nat d) (html a)) (pos a - d) g st
     (skipNextNewLine a) (lastChunkWritten a) (endOfChunkHit a)
     (bufferWaterline a) (isEol a) (lineStartPos a - d)
     (droppedBufferSize a + d) (line a) (lastErrOffset a) (handler a)
     (reported a).

(** [b] is [a] rebased by [d], both with their last gap at or before the
    cursor, and [b] with its cursor inside the buffer that is left. *)
Definition rebased (d : Z) (a b : t) : Prop :=
  b = rebase d (lastGapPos b) (gapStack b) a
  /\ 0 <= d /\ 0 <= pos b
  /\ (exists ga, lastGapPos a = Some ga /\ ga <= pos a)
  /\ (exists gb, lastGapPos b = Some gb /\ gb <= pos b).

(** The cursor of both states is on a gap, or of neither. *)
Definition gap_agree (a b : t) : Prop :=
  lastGapPos a = Some (pos a) <-> lastGapPos b = Some (pos b).

(** The input-stream preprocessing of line breaks that the comments of
    [advance] quote: every CR becomes LF, and an LF that immediately
    follows a CR is ignored.  [after_cr] tells whether the unit before was
    a CR. *)
Fixpoint newlines_normalised (after_cr : bool) (input : JS.string) : list Z :=
  match input with
  | [] => []
  | u :: rest =>
      if u =? CARRIAGE_RETURN then LINE_FEED :: newlines_normalised true rest
      else if u =? LINE_FEED then
        if after_cr then newlines_normalised false rest
        else LINE_FEED :: newlines_normalised false rest
      else u :: newlines_normalised false rest
  end.

(** The state of [e] with the flags and the reports of [s']. *)
Definition with_reports_of (s' e : t) : t :=
  set_reported (reported s')
    (set_lastErrOffset (lastErrOffset s')
       (set_endOfChunkHit (endOfChunkHit s')
          (set_skipNextNewLine (skipNextNewLine s') e))).

(* ================================================================== *)
(** ** JavaScript strings: facts *)

Lemma length_nonneg (h : JS.string) : 0 <= JS.length h.
Proof. unfold JS.length. lia. Qed.

Lemma length_app (a b : JS.string) : JS.length (a ++ b) = JS.length a + JS.length b.
Proof. unfold JS.length. rewrite length_app. lia. Qed.

Lemma substring_from_skipn (h : JS.string) (p : Z) :
  JS.substring_from h p = skipn (Z.to_nat p) h.
Proof.
  unfold JS.substring_from, JS.substring, JS.clamp, JS.length.
  set (n := List.length h).
  assert (Hlen : Z.max 0 (Z.min (Z.of_nat n) (Z.of_nat n)) = Z.of_nat n) by lia.
  rewrite Hlen.
  destruct (Z.le_gt_cases p (Z.of_nat n)) as [Hle | Hgt].
  - assert (Hlo : Z.min (Z.max 0 (Z.min p (Z.of_nat n))) (Z.of_nat n)
                  = Z.max 0 p) by lia.
    assert (Hhi : Z.max (Z.max 0 (Z.min p (Z.of_nat n))) (Z.of_nat n)
                  = Z.of_nat n) by lia.
    rewrite Hlo, Hhi.
    replace (Z.to_nat (Z.max 0 p)) with (Z.to_nat p) by lia.
    apply firstn_all2. rewrite length_skipn. fold n. lia.
  - assert (Hlo : Z.min (Z.max 0 (Z.min p (Z.of_nat n))) (Z.of_nat n)
                  = Z.of_nat n) by lia.
    assert (Hhi : Z.max (Z.max 0 (Z.min p (Z.of_nat n))) (Z.of_nat n)
                  = Z.of_nat n) by lia.
    rewrite Hlo, Hhi, Z.sub_diag. simpl.
    symmetry. apply skipn_all2. fold n. lia.
Qed.

Lemma substring_prefix_firstn (h : JS.string) (p : Z) :
  JS.substring h 0 p = firstn (Z.to_nat p) h.
Proof.
  unfold JS.substring, JS.clamp.
  pose proof (length_nonneg h) as Hn.
  replace (Z.max 0 (Z.min 0 (JS.length h))) with 0 by lia.
  replace (Z.min 0 (Z.max 0 (Z.min p (JS.length h)))) with 0 by lia.
  replace (Z.max 0 (Z.max 0 (Z.min p (JS.length h))) - 0)
    with (Z.max 0 (Z.min p (JS.length h))) by lia.
  simpl skipn.
  destruct (Z.le_gt_cases p (JS.length h)) as [Hle | Hgt].
  - replace (Z.to_nat (Z.max 0 (Z.min p (JS.length h)))) with (Z.to_nat p) by lia.
    reflexivity.
  - replace (Z.max 0 (Z.min p (JS.length h))) with (JS.length h) by lia.
    unfold JS.length in *. rewrite !firstn_all2; trivial; lia.
Qed.

Lemma charCodeAt_code_unit (h : JS.string) (i : Z) :
  JS.well_formed h -> 0 <= i < JS.length h -> JS.code_unit (JS.charCodeAt h i).
Proof.
  intros Hwf Hi. unfold JS.charCodeAt, JS.length in *.
  replace (0 <=? i) with true by (symmetry; apply Z.leb_le; lia).
  replace (i <? Z.of_nat (List.length h)) with true
    by (symmetry; apply Z.ltb_lt; lia).
  simpl. unfold JS.well_formed in Hwf. rewrite Forall_forall in Hwf.
  apply Hwf, nth_In. lia.
Qed.

(* ================================================================== *)
(** ** The recursion of [advance] *)

Section AdvanceRecursion.

Context {U : UnicodeHelpers}.

Lemma advance_enter_skip (s : t) :
  skipNextNewLine (advance_enter s) = skipNextNewLine s.
Proof. unfold advance_enter. simpl. destruct (isEol s); reflexivity. Qed.

(** The state handed to the recursive call has [skipNextNewLine] cleared. *)
Lemma tail_call_clears_skip (s s' : t) :
  advance_read s = TailCall s' -> skipNextNewLine s' = false.
Proof.
  unfold advance_read. intros H.
  destruct (JS.length (html s) <=? pos s); [discriminate|].
  destruct (JS.charCodeAt (html s) (pos s) =? CARRIAGE_RETURN); [discriminate|].
  destruct (JS.charCodeAt (html s) (pos s) =? LINE_FEED).
  - simpl in H. destruct (skipNextNewLine s).
    + inversion H. reflexivity.
    + destruct (advance_tail _ _). discriminate.
  - destruct (advance_tail _ _). discriminate.
Qed.

(** With [skipNextNewLine] clear, an activation returns. *)
Lemma advance_read_returns (s : t) :
  skipNextNewLine s = false -> exists cp s', advance_read s = Return cp s'.
Proof.
  unfold advance_read. intros Hs.
  destruct (JS.length (html s) <=? pos s); [eauto|].
  destruct (JS.charCodeAt (html s) (pos s) =? CARRIAGE_RETURN); [eauto|].
  destruct (JS.charCodeAt (html s) (pos s) =? LINE_FEED).
  - simpl. rewrite Hs. destruct (advance_tail _ _). eauto.
  - destruct (advance_tail _ _). eauto.
Qed.

(** [advance] is total: two activations are always enough, and more fuel
    changes nothing. *)
Lemma advance_fuel_enough (n : nat) (s : t) :
  advance_fuel (S (S n)) s = Some (advance s).
Proof.
  unfold advance. simpl. unfold advance_body.
  destruct (advance_read (advance_enter s)) as [cp s' | s'] eqn:E1; [reflexivity|].
  apply tail_call_clears_skip in E1.
  destruct (advance_read_returns (advance_enter s')) as (cp & s'' & E2).
  { rewrite advance_enter_skip. exact E1. }
  rewrite E2. reflexivity.
Qed.

(** [advance] as the source writes it: an activation that returns, or the
    result of the recursive call. *)
Lemma advance_unfold (s : t) :
  advance s =
  match advance_read (advance_enter s) with
  | Return cp s' => (cp, s')
  | TailCall s' => advance s'
  end.
Proof.
  unfold advance at 1. simpl. unfold advance_body.
  destruct (advance_read (advance_enter s)) as [cp s' | s'] eqn:E1; [reflexivity|].
  apply tail_call_clears_skip in E1.
  destruct (advance_read_returns (advance_enter s')) as (cp & s'' & E2).
  { rewrite advance_enter_skip. exact E1. }
  unfold advance. simpl. unfold advance_body. rewrite E2. reflexivity.
Qed.

Lemma advances_S (k : nat) (s : t) :
  advances (S k) s =
  (observe (fst (advance s)) (snd (advance s))
     :: fst (advances k (snd (advance s))),
   snd (advances k (snd (advance s)))).
Proof.
  simpl. destruct (advance s) as [cp s1]. simpl.
  destruct (advances k s1). reflexivity.
Qed.

End AdvanceRecursion.

(* ================================================================== *)
(** ** What one activation of [advance] does *)

Ltac break_if :=
  match goal with
  | |- context [if ?c then _ else _] => destruct c eqn:?
  end.

Lemma reports_only_refl (s : t) : reports_only s s.
Proof. unfold reports_only. repeat split. Qed.

Lemma reports_only_trans (a b c : t) :
  reports_only a b -> reports_only b c -> reports_only a c.
Proof. unfold reports_only. intuition congruence. Qed.

Lemma _err_reports_only (c : ERR) (s : t) : reports_only (_err c s) s.
Proof. unfold _err. break_if; unfold reports_only; simpl; repeat split. Qed.

Section Activation.

Context {U : UnicodeHelpers}.

Lemma _checkForProblematicCharacters_reports_only (cp : Z) (s : t) :
  reports_only (_checkForProblematicCharacters cp s) s.
Proof.
  unfold _checkForProblematicCharacters.
  repeat break_if; auto using _err_reports_only, reports_only_refl.
Qed.

(** The three ways [_processSurrogate] ends. *)
Lemma _processSurrogate_cases (cp : Z) (s : t) :
  let '(c, s') := _processSurrogate cp s in
  (pos s <> JS.length (html s) - 1
   /\ isSurrogatePair (JS.charCodeAt (html s) (pos s + 1)) = true
   /\ c = getSurrogatePairCodePoint cp (JS.charCodeAt (html s) (pos s + 1))
   /\ s' = _addGap (set_pos (pos s + 1) s))
  \/ (pos s = JS.length (html s) - 1 /\ lastChunkWritten s = false
      /\ c = EOF /\ s' = set_endOfChunkHit true s)
  \/ ((pos s <> JS.length (html s) - 1
       /\ isSurrogatePair (JS.charCodeAt (html s) (pos s + 1)) = false
       \/ pos s = JS.length (html s) - 1 /\ lastChunkWritten s = true)
      /\ c = cp /\ s' = _err surrogateInInputStream s).
Proof.
  unfold _processSurrogate.
  destruct (pos s =? JS.length (html s) - 1) eqn:Epos; simpl.
  - apply Z.eqb_eq in Epos.
    destruct (lastChunkWritten s) eqn:El; simpl; [right; right | right; left];
      repeat split; auto.
  - apply Z.eqb_neq in Epos.
    destruct (isSurrogatePair (JS.charCodeAt (html s) (pos s + 1))) eqn:Ep;
      [left | right; right]; repeat split; auto.
Qed.

(** [advance_tail] on the cursor: the code point is kept, or a pair is
    combined and its second half becomes a gap, or a surrogate that ends
    an unfinished input is held back. *)
Lemma advance_tail_cases (cp : Z) (e : t) :
  let '(c, s') := advance_tail cp e in
  ((isSurrogate cp = false
    \/ pos e <> JS.length (html e) - 1
       /\ isSurrogatePair (JS.charCodeAt (html e) (pos e + 1)) = false
    \/ pos e = JS.length (html e) - 1 /\ lastChunkWritten e = true)
   /\ c = cp /\ reports_only s' (set_skipNextNewLine false e))
  \/ (isSurrogate cp = true /\ pos e <> JS.length (html e) - 1
      /\ isSurrogatePair (JS.charCodeAt (html e) (pos e + 1)) = true
      /\ c = getSurrogatePairCodePoint cp (JS.charCodeAt (html e) (pos e + 1))
      /\ reports_only s' (_addGap (set_pos (pos e + 1) (set_skipNextNewLine false e))))
  \/ (isSurrogate cp = true /\ pos e = JS.length (html e) - 1
      /\ lastChunkWritten e = false /\ c = EOF
      /\ reports_only s' (set_endOfChunkHit true (set_skipNextNewLine false e))).
Proof.
  unfold advance_tail.
  destruct (isSurrogate cp) eqn:Es.
  - pose proof (_processSurrogate_cases cp (set_skipNextNewLine false e)) as H.
    destruct (_processSurrogate cp (set_skipNextNewLine false e)) as [c s1].
    simpl in H.
    assert (Hr : reports_only
              (if negb (isCommonValidRange c s1)
               then _checkForProblematicCharacters c s1 else s1) s1).
    { break_if; auto using _checkForProblematicCharacters_reports_only,
                           reports_only_refl. }
    destruct H as [(H1 & H2 & H3 & H4) | [(H1 & H2 & H3 & H4) | (H1 & H2 & H3)]];
      subst.
    + right; left. repeat split; auto.
      all: apply Hr.
    + right; right. repeat split; auto.
      all: apply Hr.
    + left. split; [right; exact H1|]. split; [reflexivity|].
      eapply reports_only_trans; [exact Hr|]. apply _err_reports_only.
  - left. split; [left; reflexivity|]. split; [reflexivity|].
    break_if; auto using _checkForProblematicCharacters_reports_only,
                         reports_only_refl.
Qed.



(** The ways one activation ends. *)
Lemma advance_read_cases (e : t) :
  let u := JS.charCodeAt (html e) (pos e) in
  match advance_read e with
  | Return c s' =>
      (JS.length (html e) <= pos e /\ c = EOF
       /\ s' = set_endOfChunkHit (negb (lastChunkWritten e)) e)
      \/ (pos e < JS.length (html e) /\ u = CARRIAGE_RETURN /\ c = LINE_FEED
          /\ s' = set_skipNextNewLine true (set_isEol true e))
      \/ (pos e < JS.length (html e) /\ u = LINE_FEED
          /\ skipNextNewLine e = false
          /\ advance_tail u (set_isEol true e) = (c, s'))
      \/ (pos e < JS.length (html e) /\ u <> CARRIAGE_RETURN /\ u <> LINE_FEED
          /\ advance_tail u e = (c, s'))
  | TailCall s1 =>
      pos e < JS.length (html e) /\ u = LINE_FEED /\ skipNextNewLine e = true
      /\ s1 = _addGap (set_skipNextNewLine false
                         (set_line (line e - 1) (set_isEol true e)))
  end.
Proof.
  unfold advance_read.
  destruct (JS.length (html e) <=? pos e) eqn:Elen.
  { apply Z.leb_le in Elen. left. auto. }
  apply Z.leb_gt in Elen.
  destruct (JS.charCodeAt (html e) (pos e) =? CARRIAGE_RETURN) eqn:Ecr.
  { apply Z.eqb_eq in Ecr. right; left. auto. }
  apply Z.eqb_neq in Ecr.
  destruct (JS.charCodeAt (html e) (pos e) =? LINE_FEED) eqn:Elf.
  - apply Z.eqb_eq in Elf. simpl.
    destruct (skipNextNewLine e) eqn:Esk.
    + auto.
    + destruct (advance_tail _ _) as [c s'] eqn:Et.
      right; right; left. rewrite Elf in *. auto.
  - apply Z.eqb_neq in Elf.
    destruct (advance_tail _ _) as [c s'] eqn:Et.
    right; right; right. auto.
Qed.

End Activation.

(* ================================================================== *)
(** ** States that [advance] cannot tell apart *)

Ltac fields :=
  unfold alike, same_cursor, reports_only, _addGap in *; simpl in *;
  intuition (try congruence; try lia).

Section Alike.

Context {U : UnicodeHelpers}.

Lemma advance_tail_congr (cp : Z) (a b : t) :
  same_cursor a b -> isEol a = isEol b ->
  fst (advance_tail cp a) = fst (advance_tail cp b)
  /\ same_cursor (snd (advance_tail cp a)) (snd (advance_tail cp b))
  /\ isEol (snd (advance_tail cp a)) = isEol (snd (advance_tail cp b))
  /\ skipNextNewLine (snd (advance_tail cp a)) = false
  /\ skipNextNewLine (snd (advance_tail cp b)) = false.
Proof.
  intros Hc He.
  pose proof (advance_tail_cases cp a) as Ha.
  pose proof (advance_tail_cases cp b) as Hb.
  destruct (advance_tail cp a) as [c1 a'], (advance_tail cp b) as [c2 b'].
  simpl.
  assert (Hh : html b = html a) by fields.
  assert (Hp : pos b = pos a) by fields.
  assert (Hl : lastChunkWritten b = lastChunkWritten a) by fields.
  rewrite Hh, Hp, Hl in Hb.
  destruct Ha as [(Ha1 & Ha2 & Ha3) | [(Ha1 & Ha2 & Ha3 & Ha4 & Ha5)
                                      | (Ha1 & Ha2 & Ha3 & Ha4 & Ha5)]];
  destruct Hb as [(Hb1 & Hb2 & Hb3) | [(Hb1 & Hb2 & Hb3 & Hb4 & Hb5)
                                      | (Hb1 & Hb2 & Hb3 & Hb4 & Hb5)]];
  subst; try (exfalso; intuition congruence).
  all: fields.
Qed.



Lemma advance_read_congr (a b : t) :
  same_cursor a b -> isEol a = isEol b ->
  (skipNextNewLine a = skipNextNewLine b
   \/ JS.length (html a) <= pos a
   \/ JS.charCodeAt (html a) (pos a) <> LINE_FEED) ->
  alike_activation (advance_read a) (advance_read b).
Proof.
  intros Hc He Hs.
  assert (Hh : html b = html a) by fields.
  assert (Hp : pos b = pos a) by fields.
  assert (Hl : lastChunkWritten b = lastChunkWritten a) by fields.
  unfold advance_read. rewrite Hh, Hp, Hl.
  destruct (JS.length (html a) <=? pos a) eqn:Elen.
  { apply Z.leb_le in Elen. simpl. fields. }
  apply Z.leb_gt in Elen.
  destruct (JS.charCodeAt (html a) (pos a) =? CARRIAGE_RETURN).
  { simpl. fields. }
  destruct (JS.charCodeAt (html a) (pos a) =? LINE_FEED) eqn:Elf.
  - apply Z.eqb_eq in Elf.
    assert (Hsk : skipNextNewLine a = skipNextNewLine b)
      by (destruct Hs as [H | [H | H]]; [exact H | lia | contradiction]).
    simpl. rewrite <- Hsk.
    destruct (skipNextNewLine a).
    + simpl. fields.
    + pose proof (advance_tail_congr (JS.charCodeAt (html a) (pos a))
                    (set_isEol true a) (set_isEol true b)) as H.
      destruct (advance_tail _ (set_isEol true a)) as [c1 a'],
               (advance_tail _ (set_isEol true b)) as [c2 b'].
      simpl in *.
      destruct H as (H1 & H2 & H3 & H4 & H5); [fields | reflexivity |].
      unfold alike. intuition congruence.
  - pose proof (advance_tail_congr (JS.charCodeAt (html a) (pos a)) a b Hc He) as H.
    destruct (advance_tail _ a) as [c1 a'], (advance_tail _ b) as [c2 b'].
    simpl in *. destruct H as (H1 & H2 & H3 & H4 & H5).
    unfold alike. intuition congruence.
Qed.

Lemma advance_enter_congr (a b : t) :
  alike a b ->
  same_cursor (advance_enter a) (advance_enter b)
  /\ isEol (advance_enter a) = isEol (advance_enter b)
  /\ (skipNextNewLine (advance_enter a) = skipNextNewLine (advance_enter b)
      \/ JS.length (html (advance_enter a)) <= pos (advance_enter a)).
Proof.
  intros (Hc & He & Hs). unfold advance_enter. simpl. rewrite <- He.
  destruct (isEol a) eqn:Ea; fields.
Qed.

(** [advance] does not tell alike states apart. *)
Lemma advance_alike (a b : t) :
  alike a b ->
  fst (advance a) = fst (advance b)
  /\ alike (snd (advance a)) (snd (advance b)).
Proof.
  intros H.
  destruct (advance_enter_congr a b H) as (Hc & He & Hs).
  pose proof (advance_read_congr _ _ Hc He
                ltac:(destruct Hs; [left | right; left]; assumption)) as Hr.
  rewrite (advance_unfold a), (advance_unfold b).
  destruct (advance_read (advance_enter a)) as [c1 a1 | a1] eqn:Ea,
           (advance_read (advance_enter b)) as [c2 b1 | b1] eqn:Eb;
    simpl in Hr; try contradiction.
  - simpl. tauto.
  - apply tail_call_clears_skip in Ea. apply tail_call_clears_skip in Eb.
    destruct (advance_enter_congr a1 b1 Hr) as (Hc1 & He1 & Hs1).
    pose proof (advance_read_congr _ _ Hc1 He1
                  ltac:(destruct Hs1; [left | right; left]; assumption)) as Hr1.
    rewrite (advance_unfold a1), (advance_unfold b1).
    destruct (advance_read_returns (advance_enter a1)) as (c1 & a2 & Ea2);
      [rewrite advance_enter_skip; exact Ea|].
    destruct (advance_read_returns (advance_enter b1)) as (c2 & b2 & Eb2);
      [rewrite advance_enter_skip; exact Eb|].
    rewrite Ea2, Eb2 in *. simpl in *. tauto.
Qed.

Lemma observe_alike (c : Z) (a b : t) :
  same_cursor a b -> observe c a = observe c b.
Proof.
  intros H. unfold observe, col, offset.
  assert (Hp : pos a = pos b) by fields.
  assert (Hg : lastGapPos a = lastGapPos b) by fields.
  assert (Hl : line a = line b) by fields.
  assert (Hs : lineStartPos a = lineStartPos b) by fields.
  assert (Hd : droppedBufferSize a = droppedBufferSize b) by fields.
  rewrite Hp, Hg, Hl, Hs, Hd. reflexivity.
Qed.

Lemma advances_alike (k : nat) (a b : t) :
  alike a b -> fst (advances k a) = fst (advances k b).
Proof.
  revert a b. induction k as [|k IH]; intros a b H; [reflexivity|].
  rewrite !advances_S. simpl.
  destruct (advance_alike a b H) as (Hc & Ha).
  rewrite Hc. f_equal.
  - apply observe_alike. apply Ha.
  - apply IH, Ha.
Qed.

End Alike.

(* ================================================================== *)
(** ** [retreat] *)

Lemma retreat_loop_eq (stack : list (option Z)) (p : Z) (g : option Z) :
  retreat_loop stack p g =
  if lt_num p g then
    match stack with
    | [] => (p - 1, None, [])
    | g' :: rest => retreat_loop rest (p - 1) g'
    end
  else (p, g, stack).
Proof. destruct stack; reflexivity. Qed.

Lemma lt_num_down (p a : Z) (g : option Z) :
  0 <= a -> lt_num p g = true -> lt_num (p - a) g = true.
Proof.
  destruct g as [g|]; simpl; [|discriminate].
  intros Ha H. apply Z.ltb_lt in H. apply Z.ltb_lt. lia.
Qed.

(** Going back [a] more positions after the loop has run is the same as
    running the loop from [a] positions further back. *)
Lemma retreat_loop_add (stack : list (option Z)) (p a : Z) (g : option Z) :
  0 <= a ->
  retreat_loop stack (p - a) g =
  let '(p', g', stack') := retreat_loop stack p g in
  retreat_loop stack' (p' - a) g'.
Proof.
  intros Ha. revert p g.
  induction stack as [|g1 rest IH]; intros p g.
  - rewrite (retreat_loop_eq [] p g).
    destruct (lt_num p g) eqn:E; [|reflexivity].
    rewrite (retreat_loop_eq [] (p - a) g), (lt_num_down _ _ _ Ha E).
    simpl. f_equal. f_equal. lia.
  - rewrite (retreat_loop_eq (g1 :: rest) p g).
    destruct (lt_num p g) eqn:E; [|reflexivity].
    rewrite (retreat_loop_eq (g1 :: rest) (p - a) g), (lt_num_down _ _ _ Ha E).
    rewrite <- IH. f_equal. lia.
Qed.

(** [retreat(a + b)] is [retreat(b)] followed by [retreat(a)]. *)
Lemma retreat_add (a b : Z) (s : t) :
  0 <= a -> 0 <= b -> retreat (a + b) s = retreat a (retreat b s).
Proof.
  intros Ha Hb. unfold retreat. simpl.
  replace (pos s - (a + b)) with (pos s - b - a) by lia.
  rewrite (retreat_loop_add (gapStack s) (pos s - b) a (lastGapPos s) Ha).
  destruct (retreat_loop (gapStack s) (pos s - b) (lastGapPos s)) as [[p g] st].
  simpl.
  destruct (retreat_loop st (p - a) g) as [[p' g'] st'].
  reflexivity.
Qed.

Lemma retreat_no_gap (c g : Z) (u : t) :
  lastGapPos u = Some g -> g <= pos u - c ->
  retreat c u = set_isEol false (set_pos (pos u - c) u).
Proof.
  intros Hg Hle. unfold retreat. simpl.
  rewrite retreat_loop_eq, Hg. simpl.
  replace (pos u - c <? g) with false by (symmetry; apply Z.ltb_ge; lia).
  destruct u; simpl in *. subst. reflexivity.
Qed.

Lemma retreat_one_gap (g : option Z) (st : list (option Z)) (u : t) :
  lastGapPos u = Some (pos u) -> gapStack u = g :: st ->
  lt_num (pos u - 2) g = false ->
  retreat 1 u
  = set_isEol false (set_gapStack st (set_lastGapPos g (set_pos (pos u - 2) u))).
Proof.
  intros Hg Hst Hle. unfold retreat. simpl.
  rewrite retreat_loop_eq, Hg, Hst. simpl.
  replace (pos u - 1 <? pos u) with true by (symmetry; apply Z.ltb_lt; lia).
  rewrite retreat_loop_eq.
  replace (pos u - 1 - 1) with (pos u - 2) by lia. rewrite Hle.
  destruct u; simpl in *. reflexivity.
Qed.

(* ================================================================== *)
(** ** The cursor invariant *)

Section CursorInvariant.

Context {U : UnicodeHelpers}.

Lemma cursor_ok_fresh (input : JS.string) (isLast : bool) (h : OnParseError) :
  cursor_ok (fresh input isLast h).
Proof.
  unfold cursor_ok, fresh, write. simpl. split.
  - exists (-2). split; [reflexivity | lia].
  - discriminate.
Qed.

Lemma advance_enter_fields (s : t) :
  html (advance_enter s) = html s
  /\ pos (advance_enter s) = pos s + 1
  /\ lastGapPos (advance_enter s) = lastGapPos s
  /\ gapStack (advance_enter s) = gapStack s
  /\ isEol (advance_enter s) = false
  /\ skipNextNewLine (advance_enter s) = skipNextNewLine s
  /\ lastChunkWritten (advance_enter s) = lastChunkWritten s
  /\ (isEol s = false -> advance_enter s = set_pos (pos s + 1) s).
Proof.
  unfold advance_enter. simpl.
  destruct (isEol s) eqn:E; simpl; repeat split; auto; discriminate.
Qed.

(** One activation that returns, entered with the last gap behind the
    cursor: where the cursor and the gaps are afterwards. *)
Lemma advance_read_cursor (e : t) (c : Z) (s' : t) (g : Z) :
  advance_read e = Return c s' ->
  lastGapPos e = Some g -> g <= pos e - 1 ->
  html s' = html e /\ lastChunkWritten s' = lastChunkWritten e
  /\ line s' = line e /\ lineStartPos s' = lineStartPos e
  /\ droppedBufferSize s' = droppedBufferSize e /\ handler s' = handler e
  /\ (pos s' = pos e /\ lastGapPos s' = lastGapPos e /\ gapStack s' = gapStack e
      \/ pos s' = pos e + 1 /\ lastGapPos s' = Some (pos e + 1)
         /\ gapStack s' = lastGapPos e :: gapStack e)
  /\ (skipNextNewLine s' = true ->
      isEol s' = true \/ JS.length (html s') <= pos s').
Proof.
  intros Hr Hg Hle.
  pose proof (advance_read_cases e) as H. rewrite Hr in H. simpl in H.
  destruct H as [(H1 & H2 & H3) | [(H1 & H2 & H3 & H4)
                | [(H1 & H2 & H3 & H4) | (H1 & H2 & H3 & H4)]]].
  - subst. simpl. repeat split; auto.
  - subst. simpl. repeat split; auto.
  - pose proof (advance_tail_cases (JS.charCodeAt (html e) (pos e))
                  (set_isEol true e)) as Ht.
    rewrite H4 in Ht. simpl in Ht.
    destruct Ht as [(_ & _ & Ht) | [(_ & _ & _ & _ & Ht) | (_ & _ & _ & _ & Ht)]];
      fields.
  - pose proof (advance_tail_cases (JS.charCodeAt (html e) (pos e)) e) as Ht.
    rewrite H4 in Ht.
    destruct Ht as [(_ & _ & Ht) | [(_ & _ & _ & _ & Ht) | (_ & _ & _ & _ & Ht)]];
      fields.
Qed.

(** The activation of [advance] that returns: it is entered with [isEol]
    clear and the last gap strictly behind the cursor. *)
Lemma advance_final_activation (s : t) :
  cursor_ok s ->
  exists e g,
    advance_read e = Return (fst (advance s)) (snd (advance s))
    /\ isEol e = false
    /\ lastGapPos e = Some g /\ g <= pos e - 1
    /\ (isEol s = false -> e = set_pos (pos s + 1) s).
Proof.
  intros ((g & Hg & Hle) & Hskip).
  destruct (advance_enter_fields s) as (Hh & Hp & Hgp & Hst & He & Hsk & Hl & Hplain).
  rewrite advance_unfold.
  destruct (advance_read (advance_enter s)) as [c s' | s1] eqn:Er.
  - exists (advance_enter s), g. simpl.
    repeat split; auto; try congruence; lia.
  - pose proof (advance_read_cases (advance_enter s)) as Hc.
    rewrite Er in Hc. simpl in Hc. destruct Hc as (Hc1 & Hc2 & Hc3 & Hc4).
    assert (Hs1 : skipNextNewLine s1 = false) by (subst s1; reflexivity).
    destruct (advance_enter_fields s1) as (Hh1 & Hp1 & Hgp1 & Hst1 & He1 & Hsk1 & _).
    destruct (advance_read_returns (advance_enter s1)) as (c & s' & Er1);
      [congruence|].
    rewrite advance_unfold, Er1. simpl.
    exists (advance_enter s1), (pos s + 1).
    repeat split; auto.
    + rewrite Hgp1. subst s1. simpl. congruence.
    + rewrite Hp1. subst s1. simpl. lia.
    + intros Heol. exfalso.
      rewrite Hsk in Hc3. destruct (Hskip Hc3) as [H | H]; [congruence|].
      rewrite Hh, Hp in Hc1. lia.
Qed.

Lemma cursor_ok_advance (s : t) : cursor_ok s -> cursor_ok (snd (advance s)).
Proof.
  intros Hok.
  destruct (advance_final_activation s Hok) as (e & g & Hr & He & Hg & Hle & _).
  destruct (advance_read_cursor _ _ _ _ Hr Hg Hle)
    as (Hh & _ & _ & _ & _ & _ & Hcur & Hsk).
  split.
  - destruct Hcur as [(Hp & Hgp & _) | (Hp & Hgp & _)].
    + exists g. split; [congruence | lia].
    + exists (pos e + 1). split; [congruence | lia].
  - intros H. destruct (Hsk H); [left; assumption | right; lia].
Qed.

Lemma cursor_ok_advances (k : nat) (s : t) :
  cursor_ok s -> cursor_ok (snd (advances k s)).
Proof.
  revert s. induction k as [|k IH]; intros s H; [exact H|].
  rewrite advances_S. simpl. apply IH, cursor_ok_advance, H.
Qed.

End CursorInvariant.

(* ================================================================== *)
(** ** Taking back what [advance] read *)

Section RoundTrip.

Context {U : UnicodeHelpers}.

Lemma retreat_skip (c : Z) (u : t) :
  skipNextNewLine (retreat c u) = skipNextNewLine u
  /\ isEol (retreat c u) = false.
Proof.
  unfold retreat. simpl.
  destruct (retreat_loop (gapStack u) (pos u - c) (lastGapPos u)) as [[p g] st].
  split; reflexivity.
Qed.

(** After an activation of [advance] has returned, [retreat(1)] puts the
    cursor one position before the place where that activation was
    entered, whatever the activation read. *)
Lemma retreat_one_after_read (e : t) (c : Z) (s' u : t) (g : Z) :
  advance_read e = Return c s' ->
  lastGapPos e = Some g -> g <= pos e - 1 ->
  same_cursor u s' ->
  same_cursor (retreat 1 u) (set_pos (pos e - 1) e).
Proof.
  intros Hr Hg Hle Hu.
  destruct (advance_read_cursor _ _ _ _ Hr Hg Hle)
    as (Hh & Hl & Hli & Hls & Hd & Hha & Hcur & _).
  destruct Hcur as [(Hp & Hgp & Hst) | (Hp & Hgp & Hst)].
  - rewrite (retreat_no_gap 1 g u); [fields | fields | fields].
  - rewrite (retreat_one_gap (Some g) (gapStack e) u).
    + fields.
    + fields.
    + fields.
    + simpl. apply Z.ltb_ge. fields.
Qed.

(** Reading again: after [retreat(1)], [advance] returns the code point it
    returned before and ends in a state like the one before. *)
Lemma advance_after_retreat_one (s u : t) :
  cursor_ok s ->
  same_cursor u (snd (advance s)) ->
  (isEol (snd (advance s)) = true ->
   skipNextNewLine u = skipNextNewLine (snd (advance s))) ->
  fst (advance (retreat 1 u)) = fst (advance s)
  /\ alike (snd (advance (retreat 1 u))) (snd (advance s)).
Proof.
  intros Hok Hu Hsk.
  destruct (advance_final_activation s Hok) as (e & g & Hr & He & Hg & Hle & _).
  pose proof (retreat_one_after_read _ _ _ _ _ Hr Hg Hle Hu) as Hback.
  destruct (retreat_skip 1 u) as (Hrs & Hre).
  set (r := retreat 1 u) in *.
  destruct (advance_enter_fields r) as (Hh & Hp & Hgp & Hst & Hee & Hes & Hl & Hplain).
  assert (Hc : same_cursor (advance_enter r) e).
  { rewrite (Hplain Hre). fields. }
  assert (Hcond : skipNextNewLine (advance_enter r) = skipNextNewLine e
                  \/ JS.length (html (advance_enter r)) <= pos (advance_enter r)
                  \/ JS.charCodeAt (html (advance_enter r)) (pos (advance_enter r))
                     <> LINE_FEED).
  { assert (Hhe : html (advance_enter r) = html e) by fields.
    assert (Hpe : pos (advance_enter r) = pos e) by fields.
    rewrite Hhe, Hpe.
    pose proof (advance_read_cases e) as Hcases. rewrite Hr in Hcases.
    simpl in Hcases.
    destruct Hcases as [(H1 & _) | [(H1 & H2 & _)
                       | [(H1 & H2 & H3 & H4) | (H1 & H2 & H3 & H4)]]].
    - right; left. exact H1.
    - right; right. rewrite H2. discriminate.
    - left. rewrite Hes, Hrs, H3.
      pose proof (advance_tail_cases (JS.charCodeAt (html e) (pos e))
                    (set_isEol true e)) as Ht.
      rewrite H4 in Ht. simpl in Ht.
      assert (Heol : isEol (snd (advance s)) = true
                     /\ skipNextNewLine (snd (advance s)) = false).
      { destruct Ht as [(_ & _ & Ht) | [(_ & _ & _ & _ & Ht) | (_ & _ & _ & _ & Ht)]];
          fields. }
      destruct Heol as (Heol & Hskf). rewrite (Hsk Heol). exact Hskf.
    - right; right. exact H3. }
  pose proof (advance_read_congr _ _ Hc ltac:(congruence) Hcond) as Hact.
  rewrite (advance_unfold r). rewrite Hr in Hact.
  destruct (advance_read (advance_enter r)) as [c' s'' | s1]; simpl in Hact;
    [|contradiction].
  simpl. exact Hact.
Qed.

(** Unreading: when [advance] was called with [isEol] clear, [retreat(1)]
    restores the cursor it was called with. *)
Lemma retreat_one_restores (s u : t) :
  cursor_ok s -> isEol s = false ->
  same_cursor u (snd (advance s)) ->
  same_cursor (retreat 1 u) s.
Proof.
  intros Hok Heol Hu.
  destruct (advance_final_activation s Hok) as (e & g & Hr & He & Hg & Hle & Hplain).
  pose proof (retreat_one_after_read _ _ _ _ _ Hr Hg Hle Hu) as Hback.
  rewrite (Hplain Heol) in Hback. fields.
Qed.

Lemma retreat_zero (s u : t) :
  cursor_ok s -> same_cursor u s -> same_cursor (retreat 0 u) s.
Proof.
  intros ((g & Hg & Hle) & _) Hu.
  rewrite (retreat_no_gap 0 g u); fields.
Qed.

(** A run of [j] advances that starts with [isEol] clear and reads no line
    break before its last call is undone by [retreat(j)]. *)
Lemma retreat_restores (j : nat) (s u : t) :
  cursor_ok s ->
  (j <> O -> isEol s = false /\ no_line_break (Nat.pred j) s = true) ->
  same_cursor u (snd (advances j s)) ->
  same_cursor (retreat (Z.of_nat j) u) s.
Proof.
  revert s u. induction j as [|j IH]; intros s u Hok Hplain Hu.
  - simpl in *. apply retreat_zero; assumption.
  - destruct (Hplain ltac:(discriminate)) as (Heol & Hnb). simpl in Hnb.
    rewrite advances_S in Hu. simpl in Hu.
    replace (Z.of_nat (S j)) with (1 + Z.of_nat j) by lia.
    rewrite retreat_add by lia.
    apply retreat_one_restores; [assumption | assumption |].
    apply IH; [apply cursor_ok_advance; assumption | | assumption].
    intros Hj. destruct j as [|j]; [contradiction|].
    simpl in Hnb. apply andb_prop in Hnb. destruct Hnb as (H1 & H2).
    apply negb_true_iff in H1. split; assumption.
Qed.

End RoundTrip.

(* ================================================================== *)
(** ** The retreat round trip *)

Section RoundTripTheorem.

Context {U : UnicodeHelpers}.

Lemma same_cursor_refl (s : t) : same_cursor s s.
Proof. unfold same_cursor. repeat split. Qed.

Lemma advances_length (k : nat) (s : t) :
  List.length (fst (advances k s)) = k.
Proof.
  revert s. induction k as [|k IH]; intros s; [reflexivity|].
  rewrite advances_S. simpl. rewrite IH. reflexivity.
Qed.

Lemma advances_add (m k : nat) (s : t) :
  advances (m + k) s =
  (fst (advances m s) ++ fst (advances k (snd (advances m s))),
   snd (advances k (snd (advances m s)))).
Proof.
  revert s. induction m as [|m IH]; intros s.
  - simpl. destruct (advances k s). reflexivity.
  - replace (S m + k)%nat with (S (m + k)) by lia.
    rewrite !advances_S, IH. reflexivity.
Qed.

(** The round trip from any state that satisfies the cursor invariant. *)
Lemma retreat_then_advance (k : nat) (s : t) :
  cursor_ok s ->
  no_line_break (Nat.pred k) s = true ->
  fst (advances k (retreat (Z.of_nat k) (snd (advances k s))))
  = fst (advances k s).
Proof.
  intros Hok Hnb. destruct k as [|j]; [reflexivity|].
  simpl Nat.pred in Hnb.
  replace (Z.of_nat (S j)) with (1 + Z.of_nat j) by lia.
  rewrite (advances_S j s). cbn [fst snd].
  set (s1 := snd (advance s)) in *.
  set (sk := snd (advances j s1)).
  assert (Hplain : j <> O -> isEol s1 = false /\ no_line_break (Nat.pred j) s1 = true).
  { intros Hj. destruct j as [|j']; [contradiction|].
    simpl in Hnb. apply andb_prop in Hnb. destruct Hnb as (H1 & H2).
    apply negb_true_iff in H1. split; assumption. }
  assert (Hu : same_cursor (retreat (Z.of_nat j) sk) s1).
  { apply retreat_restores.
    - apply cursor_ok_advance, Hok.
    - exact Hplain.
    - apply same_cursor_refl. }
  rewrite retreat_add by lia.
  destruct (advance_after_retreat_one s (retreat (Z.of_nat j) sk) Hok Hu)
    as (Hc & Ha).
  { intros Heol. destruct (retreat_skip (Z.of_nat j) sk) as (Hs & _).
    rewrite Hs. destruct j as [|j']; [reflexivity|].
    destruct (Hplain ltac:(discriminate)) as (Hf & _).
    fold s1 in Heol. congruence. }
  rewrite advances_S. cbn [fst snd]. rewrite Hc. f_equal.
  - apply observe_alike. apply Ha.
  - apply advances_alike. exact Ha.
Qed.

End RoundTripTheorem.

(** C2, as the code has it: [retreat] restores the cursor and the gaps but
    neither the line count nor [skipNextNewLine].  For every input (written
    in full or not), after [n] calls of [advance], [retreat(k)] followed by
    [k] calls of [advance] shows again the code points and the
    (line, col, offset) of the last [k] of the [n] calls, provided none of
    those [k] calls before the last one read a line break. *)
Theorem retreat_round_trip_within_line {U : UnicodeHelpers}
        (input : JS.string) (isLast : bool) (h : OnParseError) (n k : nat) :
  (k <= n)%nat ->
  no_line_break (Nat.pred k) (snd (advances (n - k) (fresh input isLast h))) = true ->
  fst (advances k (retreat (Z.of_nat k) (snd (advances n (fresh input isLast h)))))
  = skipn (n - k) (fst (advances n (fresh input isLast h))).
Proof.
  intros Hk Hnb.
  assert (E : advances n (fresh input isLast h)
              = advances ((n - k) + k) (fresh input isLast h))
    by (f_equal; lia).
  rewrite E, advances_add. cbn [fst snd].
  rewrite skipn_app, advances_length, Nat.sub_diag.
  rewrite skipn_all2 by (rewrite advances_length; lia).
  cbn [skipn app].
  apply retreat_then_advance; [|exact Hnb].
  apply cursor_ok_advances, cursor_ok_fresh.
Qed.

Lemma retreat_round_trip_within_line_witness :
  fst (advances 2 (retreat 2 (snd (advances 3 (fresh [97; 98; 10; 99] true HandlerNull)))))
  = [(98, 1, 2, 1); (10, 1, 3, 2)].
Proof.
  pose proof (retreat_round_trip_within_line [97; 98; 10; 99] true HandlerNull 3 2)
    as H.
  apply H.
  - lia.
  - reflexivity.
Defined.

(** C2 refuted as stated: on "\n\r", written in full and read to its end,
    [retreat(2)] followed by two calls of [advance] shows LF at offset 1 and
    then EOF, where the two calls before showed LF at offset 0 and LF at
    offset 1. *)
Lemma retreat_round_trip_fails_across_line_break :
  fst (advances 2 (fresh [10; 13] true HandlerNull))
  = [(10, 1, 1, 0); (10, 2, 1, 1)]
  /\ fst (advances 2 (retreat 2 (snd (advances 2 (fresh [10; 13] true HandlerNull)))))
     = [(10, 2, 1, 1); (EOF, 3, 1, 2)]
  /\ ~ Claimed.retreat_round_trip [10; 13] HandlerNull 2 2.
Proof.
  split; [reflexivity|]. split; [reflexivity|].
  unfold Claimed.retreat_round_trip. intros H.
  specialize (H (le_n 2)). vm_compute in H. discriminate.
Qed.

(* ================================================================== *)
(** ** Columns *)

(** C1, as the code has it: for every state of the preprocessor (reachable
    or not) the [col] getter is [pos - lineStartPos], plus 1 exactly when
    [lastGapPos] differs from [pos]; it is 0 on initialisation, and it is
    never the value of the specification's formula, which adds the 1 in the
    opposite case. *)
Theorem col_adds_one_unless_at_gap (s : t) :
  col s = pos s - lineStartPos s
          + match lastGapPos s with
            | Some g => if g =? pos s then 0 else 1
            | None => 1
            end
  /\ (forall h, col (new h) = 0)
  /\ (col s = Claimed.col s + 1 \/ col s = Claimed.col s - 1).
Proof.
  unfold col, Claimed.col, strict_neq.
  split; [|split].
  - destruct (lastGapPos s) as [g|]; [destruct (g =? pos s)|]; reflexivity.
  - intros h. reflexivity.
  - destruct (lastGapPos s) as [g|]; [destruct (g =? pos s)|]; simpl; lia.
Qed.

(** C1 refuted as stated: on initialisation [col] is 0, where the formula
    of the specification gives -1. *)
Lemma col_claim_fails_on_new :
  col (new HandlerNull) = 0
  /\ Claimed.col (new HandlerNull) = -1
  /\ col (new HandlerNull) <> Claimed.col (new HandlerNull).
Proof. repeat split. discriminate. Qed.

(* ================================================================== *)
(** ** Buffer compaction *)

(** C3, as the code has it: above the waterline [dropParsedChunk] removes
    the first [pos] code units of [html], adds [pos] to [droppedBufferSize],
    sets [pos] to 0, moves [lineStartPos] back by [pos] (it does not reset
    it), sets [lastGapPos] to -2 and empties [gapStack]; at or below the
    waterline it changes nothing. *)
Theorem dropParsedChunk_rebases (s : t) :
  (bufferWaterline s < pos s ->
   let s' := dropParsedChunk s in
   html s' = skipn (Z.to_nat (pos s)) (html s)
   /\ droppedBufferSize s' = droppedBufferSize s + pos s
   /\ pos s' = 0
   /\ lineStartPos s' = lineStartPos s - pos s
   /\ lastGapPos s' = Some (-2)
   /\ gapStack s' = [])
  /\ (pos s <= bufferWaterline s -> dropParsedChunk s = s).
Proof.
  unfold dropParsedChunk, willDropParsedChunk. split; intros H.
  - replace (bufferWaterline s <? pos s) with true
      by (symmetry; apply Z.ltb_lt; exact H).
    simpl. rewrite substring_from_skipn. repeat split.
  - replace (bufferWaterline s <? pos s) with false
      by (symmetry; apply Z.ltb_ge; exact H).
    reflexivity.
Qed.

Lemma dropParsedChunk_rebases_witness :
  bufferWaterline ab_read_above_waterline < pos ab_read_above_waterline
  /\ html (dropParsedChunk ab_read_above_waterline) = [98]
  /\ lineStartPos (dropParsedChunk ab_read_above_waterline) = -1.
Proof.
  split; [reflexivity|].
  pose proof (proj1 (dropParsedChunk_rebases ab_read_above_waterline)) as H.
  split; apply H; reflexivity.
Defined.

(** C3 refuted as stated: after "ab" is read with the waterline at 0 the
    cursor is at 1 and the line starts at 0; [dropParsedChunk] then leaves
    [lineStartPos] at -1, not 0. *)
Lemma dropParsedChunk_claim_fails :
  bufferWaterline ab_read_above_waterline < pos ab_read_above_waterline
  /\ lineStartPos (dropParsedChunk ab_read_above_waterline) = -1
  /\ ~ Claimed.dropParsedChunk ab_read_above_waterline.
Proof.
  split; [reflexivity|]. split; [reflexivity|].
  intros [H _].
  assert (Hlt : bufferWaterline ab_read_above_waterline < pos ab_read_above_waterline)
    by reflexivity.
  destruct (H Hlt) as (_ & _ & _ & Hls & _).
  vm_compute in Hls. discriminate.
Qed.

(** C10: [dropParsedChunk] changes neither [offset] nor [line], and what
    [html] holds at and after the cursor is the same before and after, for
    every state of the preprocessor (reachable or not). *)
Theorem dropParsedChunk_unobservable (s : t) :
  offset (dropParsedChunk s) = offset s
  /\ line (dropParsedChunk s) = line s
  /\ JS.substring_from (html (dropParsedChunk s)) (pos (dropParsedChunk s))
     = JS.substring_from (html s) (pos s).
Proof.
  unfold dropParsedChunk, willDropParsedChunk, offset.
  destruct (bufferWaterline s <? pos s); simpl.
  - repeat split; [lia|].
    rewrite !substring_from_skipn. reflexivity.
  - repeat split.
Qed.

(* ================================================================== *)
(** ** Parse errors *)

(** C4, on the code: with U+0001 U+0002 written in full and read,
    [retreat(2)] followed by one [advance] reports
    [controlCharacterInInputStream] at offset 0 a second time, because
    [_err] only remembers the offset of the last report (which is 1).
    Reading U+0002 again after [retreat(1)] does not report it again. *)
Theorem control_character_reported_twice :
  map (fun e => (code e, startOffset e)) (reported controls_read_again)
  = [(controlCharacterInInputStream, 0);
     (controlCharacterInInputStream, 1);
     (controlCharacterInInputStream, 0)]
  /\ ~ Claimed.reports_distinct controls_read_again
  /\ map (fun e => (code e, startOffset e)) (reported control_read_again)
     = [(controlCharacterInInputStream, 0);
        (controlCharacterInInputStream, 1)].
Proof.
  assert (E : map (fun e => (code e, startOffset e)) (reported controls_read_again)
              = [(controlCharacterInInputStream, 0);
                 (controlCharacterInInputStream, 1);
                 (controlCharacterInInputStream, 0)])
    by (vm_compute; reflexivity).
  split; [exact E|]. split; [|vm_compute; reflexivity].
  unfold Claimed.reports_distinct. rewrite E. intros H.
  inversion H as [|x l Hnotin _]; subst.
  apply Hnotin. right. left. reflexivity.
Qed.

(* ================================================================== *)
(** ** End of input *)



Section EndOfInput.

Context {U : UnicodeHelpers}.



End EndOfInput.




(* ================================================================== *)
(** ** Surrogates *)

Section Surrogates.

Context {U : UnicodeHelpers}.



End Surrogates.



(* ================================================================== *)
(** ** Line breaks *)

Section LineBreaks.

Context {U : UnicodeHelpers}.



End LineBreaks.




(* ================================================================== *)
(** ** The script protocol of the stream *)

(** [insertHtmlAtCurrentPos] with the cursor inside the buffer: the chunk
    goes between the unit under the cursor and the next one. *)
Lemma insertHtmlAtCurrentPos_splices (chunk : JS.string) (s : t) :
  html (insertHtmlAtCurrentPos chunk s)
  = firstn (Z.to_nat (pos s + 1)) (html s) ++ chunk
    ++ skipn (Z.to_nat (pos s + 1)) (html s)
  /\ pos (insertHtmlAtCurrentPos chunk s) = pos s.
Proof.
  unfold insertHtmlAtCurrentPos. simpl.
  rewrite substring_prefix_firstn, substring_from_skipn. split; reflexivity.
Qed.

Section ScriptProtocol.

Import ParserStream.

Context {Parser : Type} {P : ParserInterface Parser}.

Lemma drain_fold (pending : list JS.string) (s : ParserStream.t Parser) :
  drain s pending
  = ParserStream.mk (ParserStream.lastChunkWritten s) (pausedByScript s)
      (fold_left (fun p html => tokenizer_insertHtmlAtCurrentPos html p)
                 pending (parser s))
      [].
Proof.
  revert s. induction pending as [|html rest IH]; intros s; simpl.
  - reflexivity.
  - rewrite IH. reflexivity.
Qed.

Lemma documentWrites_pending (written : list JS.string) (s : ParserStream.t Parser) :
  stopped (parser s) = false ->
  documentWrites written s
  = set_pendingHtmlInsertions (rev written ++ pendingHtmlInsertions s) s.
Proof.
  unfold documentWrites. revert s.
  induction written as [|html rest IH]; intros s Hs; simpl.
  - destruct s; reflexivity.
  - rewrite IH.
    + unfold _documentWrite. rewrite Hs. simpl.
      unfold set_pendingHtmlInsertions. simpl. rewrite <- app_assoc. reflexivity.
    + unfold _documentWrite. rewrite Hs. simpl. exact Hs.
Qed.

Lemma drain_newest_first (written : list JS.string) (p : Parser) :
  fold_left (fun q html => tokenizer_insertHtmlAtCurrentPos html q) (rev written) p
  = insert_newest_first written p.
Proof.
  unfold insert_newest_first.
  induction written as [|w rest IH]; simpl; [reflexivity|].
  rewrite fold_left_app. simpl. rewrite IH. reflexivity.
Qed.

(** Insertions made newest first leave the texts in the buffer in the
    order in which they were written. *)
Lemma insert_newest_first_html (written : list JS.string) (p : Parser) :
  (forall html q,
      tokenizer_preprocessor (tokenizer_insertHtmlAtCurrentPos html q)
      = insertHtmlAtCurrentPos html (tokenizer_preprocessor q)) ->
  -1 <= pos (tokenizer_preprocessor p) ->
  pos (tokenizer_preprocessor p) + 1 <= JS.length (html (tokenizer_preprocessor p)) ->
  let n := Z.to_nat (pos (tokenizer_preprocessor p) + 1) in
  html (tokenizer_preprocessor (insert_newest_first written p))
  = firstn n (html (tokenizer_preprocessor p)) ++ concat written
    ++ skipn n (html (tokenizer_preprocessor p))
  /\ pos (tokenizer_preprocessor (insert_newest_first written p))
     = pos (tokenizer_preprocessor p).
Proof.
  intros Hfwd Hlo Hhi n.
  induction written as [|w rest IH]; simpl.
  - split; [|reflexivity]. symmetry. apply firstn_skipn.
  - destruct IH as (IHh & IHp).
    rewrite Hfwd.
    destruct (insertHtmlAtCurrentPos_splices w
                (tokenizer_preprocessor (insert_newest_first rest p)))
      as (Hh & Hp).
    rewrite Hh, Hp, IHp, IHh. fold n. split; [|reflexivity].
    assert (Hn : List.length (firstn n (html (tokenizer_preprocessor p))) = n).
    { apply firstn_length_le. unfold JS.length in Hhi. lia. }
    rewrite firstn_app, Hn, Nat.sub_diag. simpl firstn at 2.
    rewrite app_nil_r, firstn_all2 by lia.
    rewrite skipn_app, Hn, Nat.sub_diag. simpl skipn at 2.
    rewrite skipn_all2 by lia. simpl.
    rewrite <- !app_assoc. reflexivity.
Qed.

End ScriptProtocol.

(** C8: [resume] fails with the already-resumed error whenever
    [pausedByScript] is false.  Otherwise it pops every pending insertion
    and makes the tokenizer insert it at the current position, the one
    pushed last first, leaves the stack empty, clears [pausedByScript], and
    runs the parsing loop exactly when the tokenizer is then active.  With
    [written] the texts that [documentWrite] received since the pause (the
    parser not being stopped), these are inserted last received first; and
    where the tokenizer forwards an insertion to its preprocessor and the
    cursor is inside the buffer, the texts end up after the cursor in the
    order in which they were written. *)
Theorem resume_protocol {Parser : Type} {P : ParserStream.ParserInterface Parser} :
  (forall s : ParserStream.t Parser,
      ParserStream.pausedByScript s = false ->
      ParserStream._resume s = inl ParserStream.AlreadyResumed)
  /\ (forall s : ParserStream.t Parser,
      ParserStream.pausedByScript s = true ->
      let inserted :=
        fold_left (fun p html => ParserStream.tokenizer_insertHtmlAtCurrentPos html p)
                  (ParserStream.pendingHtmlInsertions s) (ParserStream.parser s) in
      let resumed := ParserStream.mk (ParserStream.lastChunkWritten s) false inserted [] in
      ParserStream._resume s
      = inr (if ParserStream.tokenizer_active inserted
             then ParserStream.runParsingLoopForCurrentChunk resumed
             else resumed))
  /\ (forall (s0 : ParserStream.t Parser) (written : list JS.string),
      ParserStream.pendingHtmlInsertions s0 = [] ->
      ParserStream.stopped (ParserStream.parser s0) = false ->
      ParserStream.pausedByScript s0 = true ->
      let inserted :=
        ParserStream.insert_newest_first written (ParserStream.parser s0) in
      let resumed := ParserStream.mk (ParserStream.lastChunkWritten s0) false inserted [] in
      ParserStream._resume (ParserStream.documentWrites written s0)
      = inr (if ParserStream.tokenizer_active inserted
             then ParserStream.runParsingLoopForCurrentChunk resumed
             else resumed)
      /\ ((forall html q,
              ParserStream.tokenizer_preprocessor
                (ParserStream.tokenizer_insertHtmlAtCurrentPos html q)
              = insertHtmlAtCurrentPos html (ParserStream.tokenizer_preprocessor q)) ->
          let pre := ParserStream.tokenizer_preprocessor (ParserStream.parser s0) in
          -1 <= pos pre -> pos pre + 1 <= JS.length (html pre) ->
          html (ParserStream.tokenizer_preprocessor inserted)
          = firstn (Z.to_nat (pos pre + 1)) (html pre) ++ concat written
            ++ skipn (Z.to_nat (pos pre + 1)) (html pre))).
Proof.
  assert (Hrun : forall s : ParserStream.t Parser,
      ParserStream.pausedByScript s = true ->
      ParserStream._resume s
      = inr (if ParserStream.tokenizer_active
                  (fold_left (fun p html => ParserStream.tokenizer_insertHtmlAtCurrentPos html p)
                     (ParserStream.pendingHtmlInsertions s) (ParserStream.parser s))
             then ParserStream.runParsingLoopForCurrentChunk
                    (ParserStream.mk (ParserStream.lastChunkWritten s) false
                       (fold_left (fun p html => ParserStream.tokenizer_insertHtmlAtCurrentPos html p)
                          (ParserStream.pendingHtmlInsertions s) (ParserStream.parser s)) [])
             else ParserStream.mk (ParserStream.lastChunkWritten s) false
                    (fold_left (fun p html => ParserStream.tokenizer_insertHtmlAtCurrentPos html p)
                       (ParserStream.pendingHtmlInsertions s) (ParserStream.parser s)) [])).
  { intros s Hp. unfold ParserStream._resume. rewrite Hp. simpl.
    rewrite drain_fold. simpl.
    destruct (ParserStream.tokenizer_active _); reflexivity. }
  split; [|split].
  - intros s Hp. unfold ParserStream._resume. rewrite Hp. reflexivity.
  - intros s Hp inserted resumed. exact (Hrun s Hp).
  - intros s0 written Hempty Hstopped Hp inserted resumed.
    split.
    + rewrite Hrun.
      * rewrite documentWrites_pending by exact Hstopped.
        rewrite Hempty, app_nil_r. simpl.
        rewrite drain_newest_first. reflexivity.
      * rewrite documentWrites_pending by exact Hstopped. exact Hp.
    + intros Hfwd pre Hlo Hhi.
      apply (insert_newest_first_html written (ParserStream.parser s0) Hfwd Hlo Hhi).
Qed.

Lemma resume_protocol_witness :
  let pre := snd (advances 3 (fresh [60; 98; 62] true HandlerNull)) in
  let paused := ParserStream.mk true true (ParserStream.mkTokenizer pre true false) [] in
  let running := ParserStream.mk true false (ParserStream.mkTokenizer pre true false) [] in
  let texts := [[60; 105; 62]; [120]] in
  let inserted := ParserStream.insert_newest_first texts (ParserStream.parser paused) in
  ParserStream._resume (ParserStream.documentWrites texts running)
  = inl ParserStream.AlreadyResumed
  /\ ParserStream._resume (ParserStream.documentWrites texts paused)
     = inr (ParserStream.runParsingLoopForCurrentChunk
              (ParserStream.mk true false inserted []))
  /\ html (ParserStream.preprocessor inserted) = [60; 98; 62; 60; 105; 62; 120].
Proof.
  intros pre paused running texts inserted.
  destruct (@resume_protocol _ ParserStream.forwarding_parser) as (Hfail & _ & Hrun).
  destruct (Hrun paused texts eq_refl eq_refl eq_refl) as (Hres & Hhtml).
  split; [exact (Hfail (ParserStream.documentWrites texts running) eq_refl)|].
  split; [exact Hres|].
  apply Hhtml.
  - intros html q. reflexivity.
  - vm_compute. discriminate.
  - vm_compute. discriminate.
Defined.

(* ================================================================== *)
(** ** Look-ahead: [startsWith] and [peek] *)

Lemma js_startsWith_iff (h pattern : JS.string) (p : Z) :
  JS.startsWith h pattern p = true
  <-> firstn (List.length pattern) (skipn (Z.to_nat p) h) = pattern.
Proof.
  unfold JS.startsWith.
  assert (Hskip : skipn (Z.to_nat (JS.clamp h p)) h = skipn (Z.to_nat p) h).
  { unfold JS.clamp, JS.length.
    destruct (Z.le_gt_cases p (Z.of_nat (List.length h))).
    - f_equal. lia.
    - rewrite !skipn_all2 by lia. reflexivity. }
  rewrite Hskip.
  destruct (list_eq_dec Z.eq_dec _ pattern) as [E | E]; split; intros H;
    try assumption; try reflexivity; try discriminate; contradiction.
Qed.

(** a case-sensitive [startsWith] answers true exactly when the buffer
    reaches [pattern.length] units from the cursor and holds the pattern
    from the cursor on (from the start of the buffer for a cursor before
    it); it changes the state only when the buffer is too short, and then
    only by setting [endOfChunkHit] to the negation of [lastChunkWritten]. *)
Theorem startsWith_case_sensitive (pattern : JS.string) (s : t) :
  (fst (startsWith pattern true s) = true
   <-> pos s + JS.length pattern <= JS.length (html s)
       /\ firstn (List.length pattern) (skipn (Z.to_nat (pos s)) (html s)) = pattern)
  /\ (pos s + JS.length pattern <= JS.length (html s) ->
      snd (startsWith pattern true s) = s)
  /\ (JS.length (html s) < pos s + JS.length pattern ->
      snd (startsWith pattern true s)
      = set_endOfChunkHit (negb (lastChunkWritten s)) s).
Proof.
  unfold startsWith.
  destruct (JS.length (html s) <? pos s + JS.length pattern) eqn:E.
  - apply Z.ltb_lt in E. simpl. split; [|split; [lia | reflexivity]].
    split; [discriminate | intros (H & _); lia].
  - apply Z.ltb_ge in E. simpl. split; [|split; [reflexivity | lia]].
    rewrite js_startsWith_iff. tauto.
Qed.

Lemma startsWith_case_sensitive_witness :
  fst (startsWith [60; 33] true
         (snd (advance (fresh [60; 33; 45; 45] true HandlerNull)))) = true
  /\ snd (startsWith [60; 33; 45; 45; 62] true
            (snd (advance (fresh [60; 33; 45; 45] false HandlerNull))))
     = set_endOfChunkHit true (snd (advance (fresh [60; 33; 45; 45] false HandlerNull))).
Proof.
  split.
  - destruct (startsWith_case_sensitive [60; 33]
                (snd (advance (fresh [60; 33; 45; 45] true HandlerNull))))
      as (H & _).
    apply H. split; [vm_compute; discriminate | reflexivity].
  - destruct (startsWith_case_sensitive [60; 33; 45; 45; 62]
                (snd (advance (fresh [60; 33; 45; 45] false HandlerNull))))
      as (_ & _ & H).
    apply H. vm_compute. reflexivity.
Defined.

Lemma charCodeAt_nth (h : JS.string) (i : Z) :
  0 <= i < JS.length h -> JS.charCodeAt h i = nth (Z.to_nat i) h JS.NaN.
Proof.
  intros Hi. unfold JS.charCodeAt.
  replace (0 <=? i) with true by (symmetry; apply Z.leb_le; lia).
  replace (i <? JS.length h) with true by (symmetry; apply Z.ltb_lt; lia).
  reflexivity.
Qed.

Lemma to_int32_code_unit (u : Z) : 0 <= u -> JS.to_int32 u = u.
Proof.
  intros Hu. unfold JS.to_int32, JS.NaN.
  replace (u =? -3) with false by (symmetry; apply Z.eqb_neq; lia). reflexivity.
Qed.

Lemma skipn_nth_cons (A : Type) (d : A) (h : list A) (n : nat) :
  (n < List.length h)%nat -> skipn n h = nth n h d :: skipn (S n) h.
Proof.
  revert n. induction h as [|a h IH]; intros n Hlt; simpl in *; [lia|].
  destruct n as [|n]; [reflexivity|]. simpl. apply IH. lia.
Qed.

(** The loop of the search that ignores case, on a well-formed buffer. *)
Lemma startsWith_loop_iff (h pattern : JS.string) (p i : Z) :
  JS.well_formed h -> 0 <= p + i ->
  p + i + JS.length pattern <= JS.length h ->
  startsWith_loop h p pattern i = true
  <-> map (fun u => Z.lor u 0x20)
          (firstn (List.length pattern) (skipn (Z.to_nat (p + i)) h)) = pattern.
Proof.
  intros Hwf. revert i.
  induction pattern as [|u rest IH]; intros i Hlo Hhi.
  - simpl. split; reflexivity.
  - assert (Hl : JS.length (u :: rest) = 1 + JS.length rest)
      by (unfold JS.length; simpl List.length; lia).
    rewrite Hl in Hhi. pose proof (length_nonneg rest) as Hr.
    assert (Hin : 0 <= p + i < JS.length h) by lia.
    assert (Hsk : skipn (Z.to_nat (p + i)) h
                  = nth (Z.to_nat (p + i)) h JS.NaN
                    :: skipn (Z.to_nat (p + (i + 1))) h).
    { replace (Z.to_nat (p + (i + 1))) with (S (Z.to_nat (p + i))) by lia.
      apply skipn_nth_cons. unfold JS.length in Hin. lia. }
    simpl startsWith_loop. rewrite (charCodeAt_nth h (p + i) Hin).
    pose proof (charCodeAt_code_unit h (p + i) Hwf Hin) as Hu.
    rewrite (charCodeAt_nth h (p + i) Hin) in Hu. unfold JS.code_unit in Hu.
    rewrite to_int32_code_unit by lia.
    rewrite Hsk. simpl firstn. simpl map.
    destruct (Z.lor (nth (Z.to_nat (p + i)) h JS.NaN) 32 =? u) eqn:E; simpl.
    + apply Z.eqb_eq in E. rewrite (IH (i + 1)) by lia.
      replace (p + (i + 1)) with (p + i + 1) by lia.
      replace (p + i + 1) with (p + (i + 1)) by lia.
      split; intros H; [rewrite E, H; reflexivity | inversion H; congruence].
    + apply Z.eqb_neq in E. split; [discriminate|].
      intros H. inversion H. contradiction.
Qed.

(** a [startsWith] that ignores case, on a buffer of code units and with
    the cursor on a unit, answers true exactly when the buffer is long
    enough and its units from the cursor on, each with bit 0x20 set, are
    the units of the pattern. *)
Theorem startsWith_ignoring_case (pattern : JS.string) (s : t) :
  JS.well_formed (html s) -> 0 <= pos s ->
  (fst (startsWith pattern false s) = true
   <-> pos s + JS.length pattern <= JS.length (html s)
       /\ map (fun u => Z.lor u 0x20)
              (firstn (List.length pattern) (skipn (Z.to_nat (pos s)) (html s)))
          = pattern).
Proof.
  intros Hwf Hpos. unfold startsWith.
  destruct (JS.length (html s) <? pos s + JS.length pattern) eqn:E.
  - apply Z.ltb_lt in E. simpl. split; [discriminate | intros (H & _); lia].
  - apply Z.ltb_ge in E. simpl.
    rewrite (startsWith_loop_iff (html s) pattern (pos s) 0 Hwf) by lia.
    replace (pos s + 0) with (pos s) by lia. tauto.
Qed.

Lemma startsWith_ignoring_case_witness :
  fst (startsWith [100; 111] false
         (snd (advance (fresh [68; 79; 67] true HandlerNull)))) = true.
Proof.
  apply (startsWith_ignoring_case [100; 111]
           (snd (advance (fresh [68; 79; 67] true HandlerNull)))).
  - repeat constructor; unfold JS.code_unit; lia.
  - vm_compute. discriminate.
  - split; [vm_compute; discriminate | reflexivity].
Defined.

Lemma startsWith_loop_needs_bit (h pattern : JS.string) (p i u : Z) :
  In u pattern -> Z.lor u 0x20 <> u -> startsWith_loop h p pattern i = false.
Proof.
  intros Hin Hbit. revert i.
  induction pattern as [|v rest IH]; intros i; [contradiction|].
  simpl. destruct (Z.lor (JS.to_int32 (JS.charCodeAt h (p + i))) 32 =? v) eqn:E;
    [|reflexivity].
  simpl. apply Z.eqb_eq in E. destruct Hin as [-> | Hin].
  - exfalso. apply Hbit. rewrite <- E.
    rewrite <- Z.lor_assoc. reflexivity.
  - apply IH. exact Hin.
Qed.

(** a pattern that holds a unit without bit 0x20 (an upper-case ASCII
    letter, for one) is never found by a [startsWith] that ignores case,
    whatever the buffer holds. *)
Theorem startsWith_ignoring_case_needs_lower_case (pattern : JS.string) (u : Z) (s : t) :
  In u pattern -> Z.lor u 0x20 <> u ->
  fst (startsWith pattern false s) = false.
Proof.
  intros Hin Hbit. unfold startsWith.
  destruct (JS.length (html s) <? pos s + JS.length pattern); [reflexivity|].
  simpl. eapply startsWith_loop_needs_bit; eassumption.
Qed.

Lemma startsWith_ignoring_case_needs_lower_case_witness :
  fst (startsWith [68; 111] false
         (snd (advance (fresh [68; 111; 67] true HandlerNull)))) = false.
Proof.
  apply (startsWith_ignoring_case_needs_lower_case [68; 111] 68).
  - left. reflexivity.
  - vm_compute. discriminate.
Defined.

(** [peek(1)] shows what [advance] returns next, for a unit that is
    neither a line break nor a surrogate: with the cursor not before the
    start and a unit after it, [advance] returns the code unit that
    [peek(1)] returned, one position further, and [peek] itself leaves the
    state as it was. *)
Theorem peek_then_advance {U : UnicodeHelpers} (s : t) :
  -1 <= pos s -> pos s + 1 < JS.length (html s) ->
  fst (peek 1 s) <> CARRIAGE_RETURN ->
  fst (peek 1 s) <> LINE_FEED ->
  isSurrogate (fst (peek 1 s)) = false ->
  snd (peek 1 s) = s
  /\ fst (advance s) = fst (peek 1 s)
  /\ pos (snd (advance s)) = pos s + 1.
Proof.
  intros Hlo Hhi. unfold peek.
  replace (JS.length (html s) <=? pos s + 1) with false
    by (symmetry; apply Z.leb_gt; lia).
  simpl. intros Hcr Hlf Hsur.
  split; [reflexivity|].
  destruct (advance_enter_fields s) as (Hh & Hp & _).
  rewrite advance_unfold. unfold advance_read. rewrite Hh, Hp.
  replace (JS.length (html s) <=? pos s + 1) with false
    by (symmetry; apply Z.leb_gt; lia).
  replace (JS.charCodeAt (html s) (pos s + 1) =? CARRIAGE_RETURN) with false
    by (symmetry; apply Z.eqb_neq; exact Hcr).
  replace (JS.charCodeAt (html s) (pos s + 1) =? LINE_FEED) with false
    by (symmetry; apply Z.eqb_neq; exact Hlf).
  pose proof (advance_tail_cases (JS.charCodeAt (html s) (pos s + 1))
                (advance_enter s)) as Hc.
  destruct (advance_tail _ _) as [c s'].
  destruct Hc as [(_ & Hc2 & Hc3) | [(Hc1 & _) | (Hc1 & _)]]; try congruence.
  simpl. split; [exact Hc2|].
  destruct Hc3 as (_ & Hps & _). simpl in Hps. congruence.
Qed.

Lemma peek_then_advance_witness :
  fst (advance (fresh [60; 98] true HandlerNull)) = 60.
Proof.
  exact (proj1 (proj2 (@peek_then_advance unicode_js
           (fresh [60; 98] true HandlerNull)
           ltac:(vm_compute; discriminate) ltac:(vm_compute; reflexivity)
           ltac:(vm_compute; discriminate) ltac:(vm_compute; discriminate)
           eq_refl))).
Defined.

(** Two writes in a row are one write of the two chunks joined, with the
    flag of the second: the whole state is the same. *)
Theorem write_write (c1 c2 : JS.string) (f1 f2 : bool) (s : t) :
  write c2 f2 (write c1 f1 s) = write (c1 ++ c2) f2 s.
Proof.
  unfold write.
  destruct (0 <? JS.length (html s)) eqn:E; simpl.
  - apply Z.ltb_lt in E.
    replace (0 <? JS.length (html s ++ c1)) with true
      by (symmetry; apply Z.ltb_lt; rewrite length_app;
          pose proof (length_nonneg c1); lia).
    simpl. rewrite app_assoc. reflexivity.
  - apply Z.ltb_ge in E.
    destruct (0 <? JS.length c1) eqn:E1; simpl; [reflexivity|].
    apply Z.ltb_ge in E1. unfold JS.length in E1.
    destruct c1; [reflexivity | simpl in E1; lia].
Qed.

(** Two insertions in a row, with the cursor inside the buffer, are one
    insertion of the second text followed by the first: what is inserted
    last comes first.  An insertion with the cursor on the last unit or
    past the end appends to the buffer. *)
Theorem insertHtmlAtCurrentPos_twice (c1 c2 : JS.string) (s : t) :
  (-1 <= pos s -> pos s + 1 <= JS.length (html s) ->
   insertHtmlAtCurrentPos c2 (insertHtmlAtCurrentPos c1 s)
   = insertHtmlAtCurrentPos (c2 ++ c1) s)
  /\ (JS.length (html s) <= pos s + 1 ->
      html (insertHtmlAtCurrentPos c1 s) = html s ++ c1).
Proof.
  split.
  - intros Hlo Hhi.
    destruct (insertHtmlAtCurrentPos_splices c1 s) as (Hh1 & Hp1).
    destruct (insertHtmlAtCurrentPos_splices c2 (insertHtmlAtCurrentPos c1 s))
      as (Hh2 & Hp2).
    destruct (insertHtmlAtCurrentPos_splices (c2 ++ c1) s) as (Hh3 & Hp3).
    assert (Hhtml : html (insertHtmlAtCurrentPos c2 (insertHtmlAtCurrentPos c1 s))
                    = html (insertHtmlAtCurrentPos (c2 ++ c1) s)).
    { rewrite Hh2, Hp1, Hh1, Hh3.
      set (n := Z.to_nat (pos s + 1)).
      assert (Hn : List.length (firstn n (html s)) = n).
      { apply firstn_length_le. unfold JS.length in Hhi. lia. }
      rewrite firstn_app, Hn, Nat.sub_diag. simpl firstn at 2.
      rewrite app_nil_r, firstn_all2 by lia.
      rewrite skipn_app, Hn, Nat.sub_diag. simpl skipn at 2.
      rewrite skipn_all2 by lia. simpl.
      rewrite <- !app_assoc. reflexivity. }
    revert Hhtml. unfold insertHtmlAtCurrentPos. simpl. intros ->. reflexivity.
  - intros Hend.
    destruct (insertHtmlAtCurrentPos_splices c1 s) as (Hh1 & _).
    rewrite Hh1. unfold JS.length in Hend.
    rewrite firstn_all2, skipn_all2 by lia.
    rewrite app_nil_r. reflexivity.
Qed.

Lemma insertHtmlAtCurrentPos_twice_witness :
  html (insertHtmlAtCurrentPos [50] (insertHtmlAtCurrentPos [49]
          (snd (advance (fresh [97; 98] true HandlerNull)))))
  = [97; 50; 49; 98]
  /\ html (insertHtmlAtCurrentPos [49]
             (snd (advances 2 (fresh [97; 98] true HandlerNull))))
     = [97; 98; 49].
Proof.
  split.
  - destruct (insertHtmlAtCurrentPos_twice [49] [50]
                (snd (advance (fresh [97; 98] true HandlerNull)))) as (H & _).
    rewrite H; [reflexivity | vm_compute; discriminate | vm_compute; discriminate].
  - destruct (insertHtmlAtCurrentPos_twice [49] []
                (snd (advances 2 (fresh [97; 98] true HandlerNull)))) as (_ & H).
    rewrite H; [reflexivity | vm_compute; discriminate].
Defined.

(** What is inserted is what is looked at next: with the cursor inside the
    buffer, [peek(1 + i)] after an insertion is unit [i] of the text. *)
Theorem peek_after_insertHtmlAtCurrentPos (chunk : JS.string) (i : Z) (s : t) :
  -1 <= pos s -> pos s + 1 <= JS.length (html s) ->
  0 <= i < JS.length chunk ->
  fst (peek (1 + i) (insertHtmlAtCurrentPos chunk s))
  = nth (Z.to_nat i) chunk JS.NaN.
Proof.
  intros Hlo Hhi Hi.
  destruct (insertHtmlAtCurrentPos_splices chunk s) as (Hh & Hp).
  unfold peek. rewrite Hh, Hp.
  set (n := Z.to_nat (pos s + 1)).
  assert (Hn : List.length (firstn n (html s)) = n).
  { apply firstn_length_le. unfold JS.length in Hhi. lia. }
  assert (Hlen : JS.length (firstn n (html s) ++ chunk ++ skipn n (html s))
                 = pos s + 1 + JS.length chunk
                   + JS.length (skipn n (html s))).
  { rewrite !length_app. unfold JS.length at 1. rewrite Hn. lia. }
  pose proof (length_nonneg (skipn n (html s))) as Hs.
  replace (JS.length (firstn n (html s) ++ chunk ++ skipn n (html s))
           <=? pos s + (1 + i)) with false
    by (symmetry; apply Z.leb_gt; lia).
  cbn [fst]. assert (Hr : 0 <= pos s + (1 + i) < JS.length (firstn n (html s) ++ chunk ++ skipn n (html s))).
  { rewrite Hlen. lia. }
  rewrite charCodeAt_nth by exact Hr.
  assert (Hn' : n = Z.to_nat (pos s + 1)) by reflexivity.
  rewrite app_nth2 by lia. rewrite Hn.
  replace (Z.to_nat (pos s + (1 + i)) - n)%nat with (Z.to_nat i) by lia.
  apply app_nth1. unfold JS.length in Hi. lia.
Qed.

Lemma peek_after_insertHtmlAtCurrentPos_witness :
  fst (peek 2 (insertHtmlAtCurrentPos [60; 105; 62]
                 (snd (advance (fresh [97; 98] true HandlerNull))))) = 105.
Proof.
  apply (peek_after_insertHtmlAtCurrentPos [60; 105; 62] 1
           (snd (advance (fresh [97; 98] true HandlerNull)))).
  - vm_compute. discriminate.
  - vm_compute. discriminate.
  - split; [vm_compute; discriminate | vm_compute; reflexivity].
Defined.

(* ================================================================== *)
(** ** The cursor and the line count under [advance] *)

Section Progress.

Context {U : UnicodeHelpers}.

(** What an activation that returns leaves alone, and how far it moves. *)
Lemma advance_read_frame (e : t) (c : Z) (s' : t) :
  advance_read e = Return c s' ->
  html s' = html e /\ lastChunkWritten s' = lastChunkWritten e
  /\ droppedBufferSize s' = droppedBufferSize e
  /\ bufferWaterline s' = bufferWaterline e /\ handler s' = handler e
  /\ line s' = line e /\ lineStartPos s' = lineStartPos e
  /\ pos e <= pos s' <= pos e + 1.
Proof.
  intros Hr.
  pose proof (advance_read_cases e) as H. rewrite Hr in H. simpl in H.
  destruct H as [(H1 & H2 & H3) | [(H1 & H2 & H3 & H4)
                | [(H1 & H2 & H3 & H4) | (H1 & H2 & H3 & H4)]]].
  - subst. simpl. repeat split; lia.
  - subst. simpl. repeat split; lia.
  - pose proof (advance_tail_cases (JS.charCodeAt (html e) (pos e))
                  (set_isEol true e)) as Ht.
    rewrite H4 in Ht. simpl in Ht.
    destruct Ht as [(_ & _ & Ht) | [(_ & _ & _ & _ & Ht) | (_ & _ & _ & _ & Ht)]];
      fields.
  - pose proof (advance_tail_cases (JS.charCodeAt (html e) (pos e)) e) as Ht.
    rewrite H4 in Ht.
    destruct Ht as [(_ & _ & Ht) | [(_ & _ & _ & _ & Ht) | (_ & _ & _ & _ & Ht)]];
      fields.
Qed.

(** The activation of [advance] that returns, with what [advance] did
    before it was entered. *)
Lemma advance_entered (s : t) :
  exists e,
    advance_read e = Return (fst (advance s)) (snd (advance s))
    /\ isEol e = false
    /\ html e = html s /\ lastChunkWritten e = lastChunkWritten s
    /\ droppedBufferSize e = droppedBufferSize s
    /\ bufferWaterline e = bufferWaterline s /\ handler e = handler s
    /\ pos s + 1 <= pos e <= pos s + 2
    /\ line e = line s + (if isEol s then 1 else 0)
    /\ (isEol s = true -> lineStartPos e = pos e)
    /\ (forall g, lastGapPos s = Some g -> g <= pos s ->
        exists g', lastGapPos e = Some g' /\ g' <= pos e - 1).
Proof.
  assert (Henter : forall x,
    html (advance_enter x) = html x
    /\ lastChunkWritten (advance_enter x) = lastChunkWritten x
    /\ droppedBufferSize (advance_enter x) = droppedBufferSize x
    /\ bufferWaterline (advance_enter x) = bufferWaterline x
    /\ handler (advance_enter x) = handler x
    /\ pos (advance_enter x) = pos x + 1
    /\ line (advance_enter x) = line x + (if isEol x then 1 else 0)
    /\ (isEol x = true -> lineStartPos (advance_enter x) = pos (advance_enter x))
    /\ lastGapPos (advance_enter x) = lastGapPos x
    /\ isEol (advance_enter x) = false
    /\ skipNextNewLine (advance_enter x) = skipNextNewLine x).
  { intros x. unfold advance_enter. simpl.
    destruct (isEol x) eqn:E; simpl; repeat split; auto; try lia; discriminate. }
  destruct (Henter s) as (Hh & Hl & Hd & Hb & Hha & Hp & Hli & Hls & Hg & He & Hsk).
  rewrite advance_unfold.
  destruct (advance_read (advance_enter s)) as [c s' | s1] eqn:Er.
  - exists (advance_enter s). simpl.
    repeat split; auto; try lia.
    intros g Hgs Hle. exists g. split; [congruence | lia].
  - pose proof (advance_read_cases (advance_enter s)) as Hc.
    rewrite Er in Hc. simpl in Hc. destruct Hc as (_ & _ & _ & Hc4).
    assert (Hs1 : skipNextNewLine s1 = false) by (subst s1; reflexivity).
    destruct (Henter s1) as (Hh1 & Hl1 & Hd1 & Hb1 & Hha1 & Hp1 & Hli1 & Hls1 & Hg1
                             & He1 & Hsk1).
    destruct (advance_read_returns (advance_enter s1)) as (c & s' & Er1);
      [congruence|].
    rewrite advance_unfold, Er1. simpl.
    exists (advance_enter s1).
    assert (Heol1 : isEol s1 = true) by (subst s1; reflexivity).
    rewrite Heol1 in Hli1.
    subst s1. simpl in *.
    repeat split; auto; try congruence; try lia.
    intros g Hgs Hle. exists (pos (advance_enter s)).
    split; [congruence | lia].
Qed.

End Progress.

(** Each [advance] moves the cursor forward, by one to three positions;
    it adds one to [line] exactly when the read before ended a line
    ([isEol]), so a CR LF pair counts once; and it leaves the buffer, the
    flags of the input and the handler alone. *)
Theorem advance_moves_forward {U : UnicodeHelpers} (s : t) :
  pos s + 1 <= pos (snd (advance s)) <= pos s + 3
  /\ line (snd (advance s)) = line s + (if isEol s then 1 else 0)
  /\ html (snd (advance s)) = html s
  /\ lastChunkWritten (snd (advance s)) = lastChunkWritten s
  /\ droppedBufferSize (snd (advance s)) = droppedBufferSize s
  /\ bufferWaterline (snd (advance s)) = bufferWaterline s
  /\ handler (snd (advance s)) = handler s.
Proof.
  destruct (advance_entered s)
    as (e & Hr & _ & Hh & Hl & Hd & Hb & Hha & Hp & Hli & _).
  destruct (advance_read_frame _ _ _ Hr)
    as (Hh' & Hl' & Hd' & Hb' & Hha' & Hli' & _ & Hp').
  repeat split; try congruence; lia.
Qed.

(** After a line break, the next [advance] shows column 1, whatever it
    reads: a character, a surrogate pair, or the end of the input; for the
    states that [advance] reaches from a fresh preprocessor. *)
Theorem first_column_of_a_line {U : UnicodeHelpers} (s : t) :
  cursor_ok s -> isEol s = true -> col (snd (advance s)) = 1.
Proof.
  intros ((g & Hg & Hle) & _) Heol.
  destruct (advance_entered s)
    as (e & Hr & _ & _ & _ & _ & _ & _ & _ & _ & Hls & Hgap).
  destruct (Hgap g Hg Hle) as (g' & Hg' & Hle').
  destruct (advance_read_cursor _ _ _ _ Hr Hg' Hle')
    as (_ & _ & _ & Hls' & _ & _ & Hcur & _).
  specialize (Hls Heol).
  unfold col, strict_neq.
  destruct Hcur as [(Hp & Hgp & _) | (Hp & Hgp & _)].
  - rewrite Hgp, Hg', Hp, Hls', Hls.
    replace (g' =? pos e) with false by (symmetry; apply Z.eqb_neq; lia).
    simpl. lia.
  - rewrite Hgp, Hp, Hls', Hls, Z.eqb_refl. simpl. lia.
Qed.

Lemma first_column_of_a_line_witness :
  col (snd (advance (snd (advance (fresh [13; 10; 0xD83D; 0xDE00] true HandlerNull)))))
  = 1.
Proof.
  apply (first_column_of_a_line
           (snd (advance (fresh [13; 10; 0xD83D; 0xDE00] true HandlerNull)))).
  - apply cursor_ok_advance, cursor_ok_fresh.
  - reflexivity.
Defined.
